(** * MLB betting model v3.1: odds conversion, blending, staking, reporting

    A shallow embedding of the numerical core of
    [mlb_betting_model_HrishikeshK.py] and [mlb_betting_model_v3_results.py].

    Conventions of the embedding.
    - A Python [int] is a [Z]; a Python [float] is a rational [Q], compared
      with [==], [<] and [<=].  The definitions at the top level read the
      arithmetic exactly; the module [Binary64] reads the same lines with every
      operation rounded to binary64, for the properties that rounding decides.
    - True division [x / y] raises [ZeroDivisionError] on a zero divisor; a
      Python function is therefore a function into [result], the error monad
      of raised exceptions.
    - A pandas column is a [list]; a column expression is a [map] over it. *)

From Stdlib Require Import ZArith QArith Qminmax Lqa Lia Bool String List.
From Stdlib Require Import Qround Qpower.
From Stdlib Require Floats Uint63.
Import ListNotations.

Local Open Scope Q_scope.

(** ** Exceptions and the error monad *)

Module Py.

(** A raised exception, identified by the name of its class. *)
Inductive exn : Type :=
| Exn (cls : string).

Definition ZeroDivisionError : exn := Exn "ZeroDivisionError".
Definition ValueError : exn := Exn "ValueError".

(** The error that the specification names for odds of zero; no statement
    of the two scripts raises it. *)
Definition InvalidOdds : exn := Exn "InvalidOdds".

Inductive result (A : Type) : Type :=
| Return (v : A)
| Raise (e : exn).

Arguments Return {A} v.
Arguments Raise {A} e.

Definition bind {A B : Type} (r : result A) (k : A -> result B) : result B :=
  match r with
  | Return v => k v
  | Raise e => Raise e
  end.

(** [raises e r]: the call [r] ends by raising [e]. *)
Definition raises {A : Type} (e : exn) (r : result A) : Prop := r = Raise e.

(** [returns r]: the call [r] ends normally, with some value. *)
Definition returns {A : Type} (r : result A) : Prop := exists v, r = Return v.

(** [yields r v]: the call [r] returns a number equal to [v]. *)
Definition yields (r : result Q) (v : Q) : Prop :=
  match r with
  | Return x => x == v
  | Raise _ => False
  end.

(** [yields2 r v w]: the call [r] returns a pair of numbers equal to
    [(v, w)]. *)
Definition yields2 (r : result (Q * Q)) (v w : Q) : Prop :=
  match r with
  | Return (x, y) => x == v /\ y == w
  | Raise _ => False
  end.

(** [x / y] on numbers. *)
Definition truediv (x y : Q) : result Q :=
  if Qeq_bool y 0 then Raise ZeroDivisionError else Return (x / y).

(** [x > y] and [x < y] as Python evaluates them. *)
Definition gt (x y : Q) : bool := negb (Qle_bool x y).
Definition lt (x y : Q) : bool := negb (Qle_bool y x).

(** The builtin [max(x, y)]: the first argument unless the second is
    strictly greater. *)
Definition max (x y : Q) : Q := if gt y x then y else x.

End Py.

Import Py.

Declare Scope py_scope.
Delimit Scope py_scope with py.
Notation "x <- c ;; k" := (bind c (fun x => k))
  (at level 61, c at next level, right associativity) : py_scope.
Local Open Scope py_scope.

(** An integer used as a number in a true division. *)
Definition int (z : Z) : Q := inject_Z z.

(** ** 4. Market blending: the odds converter *)

(** [def american_to_prob(odds):
       return 100 / (odds + 100) if odds > 0 else (-odds) / ((-odds) + 100)] *)
Definition american_to_prob (odds : Z) : result Q :=
  if (odds >? 0)%Z
  then truediv (int 100) (int (odds + 100))
  else truediv (int (- odds)) (int (- odds + 100)).

(** ** 5. EV and Kelly evaluation *)

(** The local [b] of [kelly_fraction], also the multiplier of the inline
    expected value:
    [(-odds / 100) if odds < 0 else (odds / 100)] *)
Definition payout_multiplier (odds : Z) : result Q :=
  if (odds <? 0)%Z then truediv (int (- odds)) (int 100) else truediv (int odds) (int 100).

(** [def kelly_fraction(p, odds):
       b = (-odds / 100) if odds < 0 else (odds / 100)
       q = 1 - p
       edge = b * p - q
       f_star = max(0.0, edge / b) if b > 0 else 0.0
       return f_star, edge] *)
Definition kelly_fraction (p : Q) (odds : Z) : result (Q * Q) :=
  b <- payout_multiplier odds ;;
  let q := 1 - p in
  let edge := b * p - q in
  f_star <- (if gt b 0
             then (x <- truediv edge b ;; Return (Py.max 0 x))
             else Return 0) ;;
  Return (f_star, edge).

(** [ev = (p * ((-odds / 100) if odds < 0 else (odds / 100))) - (1 - p)],
    the expected value per unit staked printed next to the Kelly fraction. *)
Definition ev (p : Q) (odds : Z) : result Q :=
  b <- payout_multiplier odds ;;
  Return (p * b - (1 - p)).

(** ** 4. Market blending: the blended column *)

(** [alpha = 0.7] *)
Definition alpha : Q := 7 # 10.

(** One cell of [alpha * df["p_calibrated"] + (1 - alpha) * df["p_market"]]. *)
Definition blend (alpha p_calibrated p_market : Q) : Q :=
  alpha * p_calibrated + (1 - alpha) * p_market.

(** [df["p_market"] = df["away_moneyline"].apply(american_to_prob)] *)
Fixpoint p_market (away_moneyline : list Z) : result (list Q) :=
  match away_moneyline with
  | [] => Return []
  | odds :: rest =>
      p <- american_to_prob odds ;;
      ps <- p_market rest ;;
      Return (p :: ps)
  end.

(** [df["p_blended"] = alpha * df["p_calibrated"] + (1 - alpha) * df["p_market"]],
    both columns being columns of the same frame. *)
Fixpoint p_blended (alpha : Q) (p_calibrated p_market : list Q) : list Q :=
  match p_calibrated, p_market with
  | pc :: pcs, pm :: pms => blend alpha pc pm :: p_blended alpha pcs pms
  | _, _ => []
  end.

(** ** 2-4. Performance evaluation: accuracy *)

(** One cell of [(df[col] > 0.5).astype(int)]. *)
Definition predicted_class (p : Q) : Z := if gt p (1 # 2) then 1%Z else 0%Z.

(** [(df[col] > 0.5).astype(int)] *)
Definition predicted_classes (probs : list Q) : list Z := map predicted_class probs.

(** Number of positions at which the two label vectors hold the same label. *)
Fixpoint matches (y_true y_pred : list Z) : nat :=
  match y_true, y_pred with
  | t :: ts, q :: qs => ((if (t =? q)%Z then 1 else 0) + matches ts qs)%nat
  | _, _ => 0%nat
  end.

(** Modelled from the spec: [accuracy_score] is library code that is not part
    of the two scripts, which only call it.  Following section 4.5 it is the
    fraction of positions at which the two label vectors agree.  [None] when
    no fraction exists: the vectors differ in length, or are empty. *)
Definition accuracy_score (y_true y_pred : list Z) : option Q :=
  if (length y_true =? length y_pred)%nat && negb (length y_true =? 0)%nat
  then Some (int (Z.of_nat (matches y_true y_pred)) / int (Z.of_nat (length y_true)))
  else None.

(** [acc = accuracy_score(y, (df[col] > 0.5).astype(int))] *)
Definition acc (y : list Z) (probs : list Q) : option Q :=
  accuracy_score y (predicted_classes probs).

(** The accuracy in the words of the specification: the fraction of cases in
    which the predicate [p > 0.5] matches the label (label 1 is the positive
    class). *)
Definition agrees (label : Z) (p : Q) : bool := Bool.eqb (gt p (1 # 2)) (label =? 1)%Z.

Fixpoint agreeing (labels : list Z) (probs : list Q) : nat :=
  match labels, probs with
  | l :: ls, p :: ps => ((if agrees l p then 1 else 0) + agreeing ls ps)%nat
  | _, _ => 0%nat
  end.

Definition spec_accuracy (labels : list Z) (probs : list Q) : Q :=
  int (Z.of_nat (agreeing labels probs)) / int (Z.of_nat (length probs)).

Definition binary (label : Z) : Prop := label = 0%Z \/ label = 1%Z.

(** ** Results script: the recommendation column *)

Definition Bet : string := "✅ Bet".
Definition Pass : string := "🚫 Pass".

(** [np.where(cond, x, y)] with scalar [x] and [y]. *)
Definition np_where {A : Type} (cond : list bool) (x y : A) : list A :=
  map (fun c : bool => if c then x else y) cond.

(** [df["Recommendation"] = np.where(df["EV_per_$"] > 0.02, "✅ Bet", "🚫 Pass")] *)
Definition Recommendation (EV_per_dollar : list Q) : list string :=
  np_where (map (fun e => gt e (2 # 100)) EV_per_dollar) Bet Pass.

(** ** 3. Calibration step: the isotonic calibrator *)

Module Isotonic.

(** [IsotonicRegression] is library code that is not part of the two
    scripts, which only construct it with [out_of_bounds='clip'] and call
    [fit_transform].  This module models it from section 4.3 of the
    specification: the fit is the non-decreasing least-squares fit at the
    training breakpoints, computed by pooling adjacent violators after the
    training points are ordered by raw probability and equal raw
    probabilities are merged; between two breakpoints the fitted map is read
    off by linear interpolation, and an input outside the fitted range is
    clipped to the nearest boundary first. *)

(** Modelled from the spec: a pooled run of breakpoints of the isotonic fit
    (library code, absent from the scripts): the common fitted value, the
    total weight and the number of breakpoints it covers. *)
Record block : Type := Block { value : Q; weight : Q; size : nat }.

(** Modelled from the spec: two adjacent runs pooled into one, whose value is
    their weighted mean, the least-squares value of a constant run. *)
Definition pool (a b : block) : block :=
  Block ((weight a * value a + weight b * value b) / (weight a + weight b))
        (weight a + weight b)
        (size a + size b).

(** Modelled from the spec: the pooling of adjacent violators.  Adds the next
    block on top of the blocks fitted so far (latest first), pooling it with
    the blocks below for as long as the order is violated. *)
Fixpoint push (b : block) (stack : list block) : list block :=
  match stack with
  | [] => [b]
  | top :: below =>
      if lt (value top) (value b) then b :: stack else push (pool top b) below
  end.

(** Modelled from the spec: the blocks of the non-decreasing fit of the
    weighted values [y_w], latest first. *)
Definition pava (y_w : list (Q * Q)) : list block :=
  fold_left (fun stack yw => push (Block (fst yw) (snd yw) 1) stack) y_w [].

(** Modelled from the spec: the fitted step values, one per breakpoint, in
    the order of the breakpoints. *)
Definition expand (stack : list block) : list Q :=
  flat_map (fun b => repeat (value b) (size b)) (rev stack).

(** Modelled from the spec: [isotonic_regression(y, sample_weight=w)], the
    non-decreasing step values minimising the weighted squared error to [y],
    one per breakpoint. *)
Definition isotonic_regression (y w : list Q) : list Q :=
  expand (pava (combine y w)).

(** Modelled from the spec: the ordering of the training points by raw
    probability, then by label. *)
Definition point_le (a b : Q * Q) : bool :=
  lt (fst a) (fst b) || (Qeq_bool (fst a) (fst b) && Qle_bool (snd a) (snd b)).

(** Modelled from the spec: insertion of a training point into ordered
    training points. *)
Fixpoint insert (a : Q * Q) (l : list (Q * Q)) : list (Q * Q) :=
  match l with
  | [] => [a]
  | b :: l' => if point_le a b then a :: l else b :: insert a l'
  end.

(** Modelled from the spec: the training points ordered by raw
    probability. *)
Definition sort (l : list (Q * Q)) : list (Q * Q) := fold_right insert [] l.

(** Modelled from the spec: merging of the ordered training points that
    share a raw probability, one breakpoint
    [(x, mean label, number of points)] per distinct [x]. *)
Fixpoint make_unique_from (x sum_y n : Q) (rest : list (Q * Q)) : list (Q * (Q * Q)) :=
  match rest with
  | [] => [(x, (sum_y / n, n))]
  | (x', y') :: rest' =>
      if gt x' x
      then (x, (sum_y / n, n)) :: make_unique_from x' y' 1 rest'
      else make_unique_from x (sum_y + y') (n + 1) rest'
  end.

(** Modelled from the spec: the breakpoints of ordered training points. *)
Definition make_unique (l : list (Q * Q)) : list (Q * (Q * Q)) :=
  match l with
  | [] => []
  | (x, y) :: rest => make_unique_from x y 1 rest
  end.

(** Modelled from the spec: the fitted calibrator, that is the breakpoints
    with their fitted values and the range of raw probabilities seen at fit
    time (the first and the last breakpoint). *)
Record IsotonicRegression : Type := Fitted {
  X_min_ : Q;
  X_max_ : Q;
  X_thresholds_ : list Q;
  y_thresholds_ : list Q
}.

(** Modelled from the spec: [calibrator.fit(X, y)].  It needs one label per
    raw probability and at least one training point. *)
Definition fit (X y : list Q) : result IsotonicRegression :=
  if (length X =? length y)%nat && negb (length X =? 0)%nat
  then
    let unique := make_unique (sort (combine X y)) in
    let unique_X := map fst unique in
    let unique_y := map (fun u => fst (snd u)) unique in
    let unique_w := map (fun u => snd (snd u)) unique in
    Return (Fitted (hd 0 unique_X) (last unique_X 0) unique_X
                   (isotonic_regression unique_y unique_w))
  else Raise ValueError.

(** Modelled from the spec: the fitted map, read off the breakpoints
    [(x0, y0) :: rest] by linear interpolation; a single breakpoint gives the
    constant map. *)
Fixpoint interp_from (x0 y0 : Q) (rest : list (Q * Q)) (t : Q) : Q :=
  match rest with
  | [] => y0
  | (x1, y1) :: rest' =>
      match rest' with
      | _ :: _ =>
          if gt t x1 then interp_from x1 y1 rest' t
          else (y1 - y0) / (x1 - x0) * (t - x0) + y0
      | [] => (y1 - y0) / (x1 - x0) * (t - x0) + y0
      end
  end.

(** Modelled from the spec: the fitted map of a calibrator; a fitted
    calibrator has at least one breakpoint. *)
Definition f_ (c : IsotonicRegression) (t : Q) : Q :=
  match combine (X_thresholds_ c) (y_thresholds_ c) with
  | [] => 0
  | (x0, y0) :: rest => interp_from x0 y0 rest t
  end.

(** Modelled from the spec: clipping of an input to the fitted range,
    [np.clip(t, lo, hi)]. *)
Definition clip (t lo hi : Q) : Q := Qmin (Qmax t lo) hi.

(** Modelled from the spec: [calibrator.transform(p)] under
    [out_of_bounds='clip']: inputs outside the fitted range take the nearest
    boundary value. *)
Definition transform (c : IsotonicRegression) (p : Q) : Q :=
  f_ c (clip p (X_min_ c) (X_max_ c)).

(** Modelled from the spec: [calibrator.fit_transform(X, y)]. *)
Definition fit_transform (X y : list Q) : result (list Q) :=
  c <- fit X y ;;
  Return (map (transform c) X).

End Isotonic.

(** [calibrator = IsotonicRegression(out_of_bounds='clip')]
    [df["p_calibrated"] = calibrator.fit_transform(df["p_base"], y)] *)
Definition p_calibrated (p_base : list Q) (y : list Z) : result (list Q) :=
  Isotonic.fit_transform p_base (map int y).

(** Non-decreasing and strictly increasing sequences of numbers. *)
Fixpoint chain (R : Q -> Q -> Prop) (x : Q) (l : list Q) : Prop :=
  match l with
  | [] => True
  | y :: l' => R x y /\ chain R y l'
  end.

Definition sorted (R : Q -> Q -> Prop) (l : list Q) : Prop :=
  match l with
  | [] => True
  | x :: l' => chain R x l'
  end.

(** Breakpoints [(x0, y0) :: rest] whose abscissae increase strictly and
    whose ordinates do not decrease. *)
Fixpoint rising (x0 y0 : Q) (rest : list (Q * Q)) : Prop :=
  match rest with
  | [] => True
  | (x1, y1) :: rest' => x0 < x1 /\ y0 <= y1 /\ rising x1 y1 rest'
  end.

(** The blocks kept by the pooling, latest first, have strictly decreasing
    values: read in the order of the breakpoints they increase. *)
Definition descending (stack : list Isotonic.block) : Prop :=
  sorted (fun a b => b < a) (map Isotonic.value stack).

(** ** Results script: outcomes, counts, accuracy and return *)

(** A number that may be NaN: [None] stands for NaN. *)
Definition NaN {A : Type} : option A := None.

(** The dictionary [{1: "Yes", 0: "No"}] and [Series.map(dict)] on one cell:
    a key that the dictionary lacks gives NaN. *)
Definition came_true_dict : list (Z * string) := [(1%Z, "Yes"%string); (0%Z, "No"%string)].

Fixpoint dict_get (d : list (Z * string)) (k : Z) : option string :=
  match d with
  | [] => NaN
  | (k', v) :: d' => if (k =? k')%Z then Some v else dict_get d' k
  end.

(** [df["Came_True"] = df["Actual_Result"].map({1: "Yes", 0: "No"})] *)
Definition Came_True (Actual_Result : list Z) : list (option string) :=
  map (dict_get came_true_dict) Actual_Result.

(** [df["Recommendation"] == "✅ Bet"] *)
Definition is_bet (recommendation : list string) : list bool :=
  map (fun r => String.eqb r Bet) recommendation.

(** [mask.sum()] of a boolean column. *)
Fixpoint mask_sum (mask : list bool) : Z :=
  match mask with
  | [] => 0%Z
  | b :: mask' => ((if b then 1 else 0) + mask_sum mask')%Z
  end.

(** [m1 & m2] of two boolean columns of the frame. *)
Fixpoint mask_and (m1 m2 : list bool) : list bool :=
  match m1, m2 with
  | b1 :: m1', b2 :: m2' => (b1 && b2) :: mask_and m1' m2'
  | _, _ => []
  end.

(** [df.loc[mask, col]]: the cells of a column in the rows that the mask
    selects. *)
Fixpoint select {A : Type} (mask : list bool) (col : list A) : list A :=
  match mask, col with
  | b :: mask', c :: col' => if b then c :: select mask' col' else select mask' col'
  | _, _ => []
  end.

(** [df[mask].shape[0]]: the number of rows that the mask selects. *)
Definition selected_rows (mask : list bool) : Z :=
  Z.of_nat (length (filter (fun b : bool => b) mask)).

(** [total_bets = (df["Recommendation"] == "✅ Bet").sum()] *)
Definition total_bets (recommendation : list string) : Z :=
  mask_sum (is_bet recommendation).

(** [won_bets = df[(df["Recommendation"] == "✅ Bet")
                   & (df["Actual_Result"] == 1)].shape[0]] *)
Definition won_bets (recommendation : list string) (Actual_Result : list Z) : Z :=
  selected_rows (mask_and (is_bet recommendation)
                          (map (fun a => (a =? 1)%Z) Actual_Result)).

(** Rounding of a number to the nearest integer, a tie going to the even
    one. *)
Definition round_half_even (y : Q) : Z :=
  let f := Qfloor y in
  let r := y - inject_Z f in
  if lt r (1 # 2) then f
  else if gt r (1 # 2) then (f + 1)%Z
  else if Z.even f then f else (f + 1)%Z.

(** The builtin [round(x, ndigits)] for [ndigits >= 0]. *)
Definition round (x : Q) (ndigits : Z) : Q :=
  int (round_half_even (x * int (10 ^ ndigits))) / int (10 ^ ndigits).

(** [model_accuracy = round(won_bets / total_bets * 100, 2)
                      if total_bets > 0 else 0] *)
Definition model_accuracy (won_bets total_bets : Z) : result Q :=
  if (total_bets >? 0)%Z
  then (q <- truediv (int won_bets) (int total_bets) ;; Return (round (q * 100) 2))
  else Return 0.

(** [Series.sum()] and [Series.mean()]; the mean of an empty column is NaN. *)
Fixpoint series_sum (s : list Q) : Q :=
  match s with
  | [] => 0
  | x :: s' => x + series_sum s'
  end.

Definition series_mean (s : list Q) : option Q :=
  match s with
  | [] => NaN
  | _ :: _ => Some (series_sum s / int (Z.of_nat (length s)))
  end.

(** [avg_ev = df.loc[df["Recommendation"] == "✅ Bet", "EV_per_$"].mean()] *)
Definition avg_ev (recommendation : list string) (EV_per_dollar : list Q) : option Q :=
  series_mean (select (is_bet recommendation) EV_per_dollar).

(** [roi = round(avg_ev * 100, 2)]; rounding keeps NaN. *)
Definition roi (avg_ev : option Q) : option Q :=
  option_map (fun a => round (a * 100) 2) avg_ev.

(** ** Binary64 arithmetic *)

Module Binary64.

(** The scripts compute on binary64 numbers.  This module reads the same
    source lines with every arithmetic operation rounded to the nearest
    binary64 number, a tie going to the even significand.  A binary64 number
    is a rational here; overflow to infinity is outside the model (the bounds
    of the statements keep every value far below the largest binary64
    number). *)

(** [2 ** e] *)
Definition pow2 (e : Z) : Q := 2 ^ e.

(** The binary exponent of a positive number: [floor(log2(q))]. *)
Definition ilog2 (q : Q) : Z :=
  let e0 := (Z.log2 (Qnum q) - Z.log2 (Zpos (Qden q)))%Z in
  if Qle_bool (pow2 e0) q then e0 else (e0 - 1)%Z.

(** The smallest exponent of a normal binary64 number. *)
Definition emin : Z := -1022.

(** The spacing of the binary64 numbers around a positive number: 53 bits of
    significand, and the spacing of the subnormal numbers below [2 ** emin]. *)
Definition ulp (q : Q) : Q := pow2 (Z.max (ilog2 q) emin - 52).

Definition rnd_pos (q : Q) : Q := inject_Z (round_half_even (q / ulp q)) * ulp q.

(** The binary64 number nearest to [q], a tie going to the even one. *)
Definition rnd (q : Q) : Q :=
  match Qnum q with
  | Z0 => 0
  | Zpos _ => rnd_pos q
  | Zneg _ => - rnd_pos (- q)
  end.

(** [q] is a binary64 number. *)
Definition representable (q : Q) : Prop := rnd q == q.

(** [x + y], [x - y] and [x * y] on floats. *)
Definition add (x y : Q) : Q := rnd (x + y).
Definition sub (x y : Q) : Q := rnd (x - y).
Definition mul (x y : Q) : Q := rnd (x * y).

(** [x / y] on floats, and on integers: the quotient is rounded once. *)
Definition truediv (x y : Q) : result Q :=
  if Qeq_bool y 0 then Raise ZeroDivisionError else Return (rnd (x / y)).

(** [def american_to_prob(odds):
       return 100 / (odds + 100) if odds > 0 else (-odds) / ((-odds) + 100)] *)
Definition american_to_prob (odds : Z) : result Q :=
  if (odds >? 0)%Z
  then truediv (int 100) (int (odds + 100))
  else truediv (int (- odds)) (int (- odds + 100)).

(** [df["p_market"] = df["away_moneyline"].apply(american_to_prob)] *)
Fixpoint p_market (away_moneyline : list Z) : result (list Q) :=
  match away_moneyline with
  | [] => Return []
  | odds :: rest =>
      p <- american_to_prob odds ;;
      ps <- p_market rest ;;
      Return (p :: ps)
  end.

(** [alpha = 0.7] *)
Definition alpha : Q := rnd (7 # 10).

(** One cell of [alpha * df["p_calibrated"] + (1 - alpha) * df["p_market"]]. *)
Definition blend (alpha p_calibrated p_market : Q) : Q :=
  add (mul alpha p_calibrated) (mul (sub 1 alpha) p_market).

(** [def kelly_fraction(p, odds):
       b = (-odds / 100) if odds < 0 else (odds / 100)
       q = 1 - p
       edge = b * p - q
       f_star = max(0.0, edge / b) if b > 0 else 0.0
       return f_star, edge] *)
Definition kelly_fraction (p : Q) (odds : Z) : result (Q * Q) :=
  b <- (if (odds <? 0)%Z then truediv (int (- odds)) (int 100)
        else truediv (int odds) (int 100)) ;;
  let q := sub 1 p in
  let edge := sub (mul b p) q in
  f_star <- (if gt b 0
             then (x <- truediv edge b ;; Return (Py.max 0 x))
             else Return 0) ;;
  Return (f_star, edge).

(** The value of a primitive binary64 number of the kernel ([None] for an
    infinity or a NaN), and the primitive quotient of two integers below
    [2 ** 53].  They serve to compare [rnd] with the primitive operations. *)
Definition of_float (f : PrimFloat.float) : option Q :=
  match FloatOps.Prim2SF f with
  | SpecFloat.S754_zero _ => Some 0
  | SpecFloat.S754_finite s m e =>
      Some ((if s then - inject_Z (Zpos m) else inject_Z (Zpos m)) * pow2 e)
  | _ => None
  end.

Definition float_quotient (n d : Z) : PrimFloat.float :=
  PrimFloat.div (PrimFloat.of_uint63 (Uint63.of_Z n)) (PrimFloat.of_uint63 (Uint63.of_Z d)).

Definition same (f : PrimFloat.float) (q : Q) : Prop :=
  match of_float f with
  | Some v => v == q
  | None => False
  end.

End Binary64.

(** * Properties *)

(** ** Concrete runs *)

Example american_to_prob_favourite : yields (american_to_prob (-110)) (11 # 21).
Proof. reflexivity. Qed.

Example american_to_prob_underdog : yields (american_to_prob 110) (10 # 21).
Proof. reflexivity. Qed.

Example kelly_fraction_no_edge : yields2 (kelly_fraction (40 # 100) 110) 0 (-16 # 100).
Proof. split; reflexivity. Qed.

Example acc_with_ties :
  acc [1; 0; 0]%Z [1 # 2; 1 # 2; 6 # 10] = Some (int 1 / int 3).
Proof. reflexivity. Qed.

Example Recommendation_run :
  Recommendation [2 # 100; 21 # 1000; 1 # 100] = [Pass; Bet; Pass].
Proof. reflexivity. Qed.

Example fit_run :
  exists c,
    Isotonic.fit [1 # 10; 5 # 10; 3 # 10; 3 # 10; 9 # 10; 7 # 10] [0; 1; 1; 0; 1; 0] = Return c
    /\ map Qred (Isotonic.X_thresholds_ c) = [1 # 10; 3 # 10; 1 # 2; 7 # 10; 9 # 10]
    /\ map Qred (Isotonic.y_thresholds_ c) = [0; 1 # 2; 1 # 2; 1 # 2; 1]
    /\ map (fun t => Qred (Isotonic.transform c t)) [0; 2 # 10; 8 # 10; 1]
       = [0; 1 # 4; 3 # 4; 1].
Proof. eexists. repeat split. Qed.

(** ** Arithmetic of the embedding *)

Lemma gt_true (x y : Q) : gt x y = true <-> y < x.
Proof.
  unfold gt. rewrite negb_true_iff, <- not_true_iff_false, Qle_bool_iff.
  split; [apply Qnot_le_lt | apply Qlt_not_le].
Qed.

Lemma gt_false (x y : Q) : gt x y = false <-> x <= y.
Proof. unfold gt. rewrite negb_false_iff. apply Qle_bool_iff. Qed.

Lemma lt_true (x y : Q) : lt x y = true <-> x < y.
Proof. apply gt_true. Qed.

Lemma max_Qmax (x y : Q) : Py.max x y = Qmax x y.
Proof.
  unfold Py.max, Qmax, GenericMinMax.gmax.
  destruct (gt y x) eqn:E.
  - apply gt_true in E. rewrite Qlt_alt in E. now rewrite E.
  - apply gt_false in E. destruct (x ?= y) eqn:C; try reflexivity.
    rewrite <- Qlt_alt in C. lra.
Qed.

Lemma truediv_nonzero (x y : Q) : ~ y == 0 -> truediv x y = Return (x / y).
Proof.
  intros H. unfold truediv. destruct (Qeq_bool y 0) eqn:E; [|reflexivity].
  apply Qeq_bool_iff in E. contradiction.
Qed.

Lemma int_lt (a b : Z) : (a < b)%Z -> int a < int b.
Proof. unfold int. now rewrite <- Zlt_Qlt. Qed.

Lemma int_pos (a : Z) : (0 < a)%Z -> 0 < int a.
Proof. intros H. apply (int_lt 0 a H). Qed.

Lemma int_add (a b : Z) : int (a + b) == int a + int b.
Proof. unfold int. now rewrite inject_Z_plus. Qed.

Lemma int_opp (a : Z) : int (- a) == - int a.
Proof. unfold int. now rewrite inject_Z_opp. Qed.

(** ** The odds converter *)

Lemma american_to_prob_pos (odds : Z) :
  (0 < odds)%Z -> american_to_prob odds = Return (int 100 / int (odds + 100)).
Proof.
  intros H. unfold american_to_prob.
  replace (odds >? 0)%Z with true by (symmetry; now apply Z.gtb_lt).
  apply truediv_nonzero. assert (0 < int (odds + 100)) by (apply int_pos; lia).
  lra.
Qed.

Lemma american_to_prob_nonpos (odds : Z) :
  (odds <= 0)%Z -> american_to_prob odds = Return (int (- odds) / int (- odds + 100)).
Proof.
  intros H. unfold american_to_prob.
  replace (odds >? 0)%Z with false by (symmetry; rewrite Z.gtb_ltb; now apply Z.ltb_ge).
  apply truediv_nonzero. assert (0 < int (- odds + 100)) by (apply int_pos; lia).
  lra.
Qed.

(** ** The staking engine *)

Lemma payout_multiplier_eq (odds : Z) :
  payout_multiplier odds
  = Return (if (odds <? 0)%Z then int (- odds) / int 100 else int odds / int 100).
Proof.
  unfold payout_multiplier.
  destruct (odds <? 0)%Z; apply truediv_nonzero; discriminate.
Qed.

Lemma payout_multiplier_sign (odds : Z) (b : Q) :
  payout_multiplier odds = Return b ->
  (odds <> 0%Z -> 0 < b) /\ (odds = 0%Z -> b == 0).
Proof.
  rewrite payout_multiplier_eq. intros [= <-]. split.
  - intros Hz. destruct (odds <? 0)%Z eqn:E.
    + apply Z.ltb_lt in E. assert (0 < int (- odds)) by (apply int_pos; lia).
      apply Qlt_shift_div_l; [reflexivity | lra].
    + apply Z.ltb_ge in E. assert (0 < int odds) by (apply int_pos; lia).
      apply Qlt_shift_div_l; [reflexivity | lra].
  - intros ->. reflexivity.
Qed.

(** What [kelly_fraction] computes, for every input: it never divides by
    zero, whatever the odds. *)
Lemma kelly_fraction_eq (p : Q) (odds : Z) (b : Q) :
  payout_multiplier odds = Return b ->
  kelly_fraction p odds
  = Return (if gt b 0 then Qmax 0 ((b * p - (1 - p)) / b) else 0, b * p - (1 - p)).
Proof.
  intros Hb. unfold kelly_fraction. rewrite Hb. cbn [bind].
  destruct (gt b 0) eqn:E; [|reflexivity].
  apply gt_true in E. rewrite truediv_nonzero by lra. cbn [bind].
  now rewrite max_Qmax.
Qed.

Lemma kelly_fraction_yields (p : Q) (odds : Z) (b : Q) :
  payout_multiplier odds = Return b -> 0 < b ->
  yields2 (kelly_fraction p odds) (Qmax 0 ((b * p - (1 - p)) / b)) (b * p - (1 - p)).
Proof.
  intros Hb Hpos. rewrite (kelly_fraction_eq p odds b Hb).
  replace (gt b 0) with true by (symmetry; now apply gt_true).
  split; reflexivity.
Qed.

(** ** Claims about the odds converter *)

(** C3. For positive odds the converter returns [100 / (odds + 100)], for
    negative odds it returns [(-odds) / ((-odds) + 100)]; it raises nothing. *)
Theorem american_to_prob_formula (odds : Z) :
  odds <> 0%Z ->
  yields (american_to_prob odds)
         (if (0 <? odds)%Z then 100 / (int odds + 100)
          else - int odds / (- int odds + 100)).
Proof.
  intros Hz. destruct (0 <? odds)%Z eqn:E.
  - apply Z.ltb_lt in E. rewrite american_to_prob_pos by exact E.
    cbn [yields]. rewrite int_add. reflexivity.
  - apply Z.ltb_ge in E. rewrite american_to_prob_nonpos by exact E.
    cbn [yields]. rewrite int_add, int_opp. reflexivity.
Qed.

Lemma american_to_prob_formula_witness :
  yields (american_to_prob (-110)) (- int (-110) / (- int (-110) + 100))
  /\ yields (american_to_prob 125) (100 / (int 125 + 100)).
Proof.
  split.
  - apply (american_to_prob_formula (-110)). discriminate.
  - apply (american_to_prob_formula 125). discriminate.
Defined.

(** C1 (as stated, refuted). With odds of zero it is not the case that both
    functions fail with [InvalidOdds]: each of them returns a value. *)
Lemma odds_zero_not_rejected :
  ~ (raises InvalidOdds (american_to_prob 0)
     /\ raises InvalidOdds (kelly_fraction (1 # 2) 0))
  /\ returns (american_to_prob 0)
  /\ returns (kelly_fraction (1 # 2) 0).
Proof.
  split; [intros [H _]; discriminate H|].
  split; eexists; reflexivity.
Qed.

(** C1 (amended). With odds of zero nothing is raised: the converter returns
    the probability 0 and the staking function returns the Kelly fraction 0
    together with the edge [p - 1]. *)
Theorem odds_zero_returns (p : Q) :
  yields (american_to_prob 0) 0 /\ yields2 (kelly_fraction p 0) 0 (p - 1).
Proof.
  split; [reflexivity|].
  rewrite (kelly_fraction_eq p 0 (int 0 / int 100)) by reflexivity.
  cbn. split; [reflexivity|]. change (int 0 / int 100) with (0 # 100). lra.
Qed.

(** ** Claims about the staking engine *)

(** C2. For a probability [p] and odds other than zero, the payout multiplier
    is [b = -odds/100] for negative and [b = odds/100] for positive odds, it
    is positive, the returned edge is [b*p - (1-p)] and the returned Kelly
    fraction is [max(0, edge/b)], which is also what the guarded expression
    [max(0, edge/b) if b > 0 else 0] denotes. *)
Theorem kelly_fraction_formula (p : Q) (odds : Z) :
  0 <= p <= 1 -> odds <> 0%Z ->
  let b := if (odds <? 0)%Z then - int odds / 100 else int odds / 100 in
  let edge := b * p - (1 - p) in
  yields (payout_multiplier odds) b
  /\ 0 < b
  /\ yields2 (kelly_fraction p odds) (Qmax 0 (edge / b)) edge
  /\ yields2 (kelly_fraction p odds) (if gt b 0 then Qmax 0 (edge / b) else 0) edge.
Proof.
  intros _ Hz b edge.
  pose proof (payout_multiplier_eq odds) as Hb.
  set (b' := if (odds <? 0)%Z then int (- odds) / int 100 else int odds / int 100) in Hb.
  assert (Heq : b' == b).
  { subst b b'. destruct (odds <? 0)%Z; [rewrite int_opp|]; reflexivity. }
  destruct (payout_multiplier_sign odds b' Hb) as [Hpos _]. specialize (Hpos Hz).
  assert (Hk : yields2 (kelly_fraction p odds) (Qmax 0 (edge / b)) edge).
  { pose proof (kelly_fraction_yields p odds b' Hb Hpos) as H.
    destruct (kelly_fraction p odds) as [[f e]|]; [|exact H].
    destruct H as [Hf He]. subst edge. split.
    - rewrite Hf. now rewrite Heq.
    - rewrite He. now rewrite Heq. }
  repeat split.
  - rewrite Hb. exact Heq.
  - now rewrite <- Heq.
  - exact Hk.
  - replace (gt b 0) with true; [exact Hk|]. symmetry. apply gt_true. now rewrite <- Heq.
Qed.

Lemma kelly_fraction_formula_witness :
  yields2 (kelly_fraction (55 # 100) (-110))
          (Qmax 0 (((- int (-110) / 100) * (55 # 100) - (1 - (55 # 100)))
                   / (- int (-110) / 100)))
          ((- int (-110) / 100) * (55 # 100) - (1 - (55 # 100))).
Proof.
  apply (kelly_fraction_formula (55 # 100) (-110)).
  - split; [apply Qle_bool_iff | apply Qle_bool_iff]; reflexivity.
  - discriminate.
Defined.

(** C4 (as stated, refuted). The edges of the two worked examples are not
    0.165 and 0.10, whatever the Kelly fractions. *)
Lemma worked_examples_as_stated_fail :
  ~ (exists f, yields2 (kelly_fraction (55 # 100) (-110)) f (165 # 1000))
  /\ ~ (exists f, yields2 (kelly_fraction (60 # 100) 110) f (10 # 100)).
Proof. split; intros [f [_ H]]; discriminate H. Qed.

(** C4 (amended). For odds -110 and p = 0.55 the multiplier is 1.10, the edge
    0.155 and the Kelly fraction 31/220 (about 0.1409); for odds +110 and
    p = 0.60 the multiplier is 1.10, the edge and the expected value are 0.26
    and the Kelly fraction is 13/55 (about 0.2364). *)
Theorem worked_examples :
  (yields (payout_multiplier (-110)) (11 # 10)
   /\ yields2 (kelly_fraction (55 # 100) (-110)) (31 # 220) (155 # 1000))
  /\ (yields (payout_multiplier 110) (11 # 10)
      /\ yields2 (kelly_fraction (60 # 100) 110) (13 # 55) (26 # 100)
      /\ yields (ev (60 # 100) 110) (26 # 100)).
Proof. repeat split; reflexivity. Qed.

(** C10. The edge returned by [kelly_fraction] and the expected value of the
    inline expression are the same number, for every probability and every
    odds; neither computation raises. *)
Theorem edge_is_expected_value (p : Q) (odds : Z) :
  exists f_star edge v,
    kelly_fraction p odds = Return (f_star, edge)
    /\ ev p odds = Return v
    /\ edge == v.
Proof.
  pose proof (payout_multiplier_eq odds) as Hb.
  do 3 eexists. split; [apply (kelly_fraction_eq p odds _ Hb)|].
  split; [unfold ev; rewrite Hb; reflexivity|]. ring.
Qed.

(** ** The blender *)

Lemma blend_between (a x y : Q) :
  0 <= a <= 1 -> Qmin x y <= blend a x y <= Qmax x y.
Proof.
  intros [Ha0 Ha1]. unfold blend.
  assert (H1 : 0 <= a * (x - Qmin x y)).
  { apply Qmult_le_0_compat; [exact Ha0|]. pose proof (Q.le_min_l x y). lra. }
  assert (H2 : 0 <= (1 - a) * (y - Qmin x y)).
  { apply Qmult_le_0_compat; [lra|]. pose proof (Q.le_min_r x y). lra. }
  assert (H3 : 0 <= a * (Qmax x y - x)).
  { apply Qmult_le_0_compat; [exact Ha0|]. pose proof (Q.le_max_l x y). lra. }
  assert (H4 : 0 <= (1 - a) * (Qmax x y - y)).
  { apply Qmult_le_0_compat; [lra|]. pose proof (Q.le_max_r x y). lra. }
  split; lra.
Qed.

(** ** Claim about the reported accuracy *)

Lemma predicted_class_agrees (label : Z) (p : Q) :
  binary label -> (label =? predicted_class p)%Z = agrees label p.
Proof.
  unfold predicted_class, agrees.
  intros [-> | ->]; destruct (gt p (1 # 2)); reflexivity.
Qed.

Lemma matches_agreeing (labels : list Z) (probs : list Q) :
  Forall binary labels ->
  matches labels (predicted_classes probs) = agreeing labels probs.
Proof.
  intros Hb. revert probs.
  induction Hb as [| l ls Hl _ IH]; intros [| p ps]; cbn; try reflexivity.
  now rewrite IH, predicted_class_agrees.
Qed.

(** C7. For a non-empty vector of probabilities and a binary label vector of
    the same length, the reported accuracy is the fraction of cases in which
    [p > 0.5] matches the label; a probability of exactly 0.5 is predicted as
    class 0. *)
Theorem accuracy_is_matching_fraction (labels : list Z) (probs : list Q) :
  length labels = length probs -> Forall binary labels -> probs <> [] ->
  acc labels probs = Some (spec_accuracy labels probs)
  /\ predicted_class (1 # 2) = 0%Z.
Proof.
  intros Hlen Hb Hne. split; [|reflexivity].
  unfold acc, accuracy_score, spec_accuracy, predicted_classes.
  rewrite length_map, Hlen, Nat.eqb_refl.
  destruct probs as [| p ps]; [contradiction|].
  cbn [length Nat.eqb negb andb].
  now rewrite <- (matches_agreeing labels (p :: ps) Hb).
Qed.

Lemma accuracy_is_matching_fraction_witness :
  acc [1; 0; 0; 1]%Z [1 # 2; 1 # 2; 6 # 10; 7 # 10]
  = Some (spec_accuracy [1; 0; 0; 1]%Z [1 # 2; 1 # 2; 6 # 10; 7 # 10])
  /\ predicted_class (1 # 2) = 0%Z.
Proof.
  apply (accuracy_is_matching_fraction [1; 0; 0; 1]%Z [1 # 2; 1 # 2; 6 # 10; 7 # 10]).
  - reflexivity.
  - repeat constructor; (now left) || (now right).
  - discriminate.
Defined.

(** ** Claim about the recommendation label *)

(** C9. The label of a row is the bet label exactly when its expected value
    per unit staked is strictly greater than 0.02, and the pass label
    otherwise; an expected value of exactly 0.02 gives the pass label. *)
Theorem recommendation_threshold (EV_per_dollar : list Q) (i : nat) (e : Q) :
  nth_error EV_per_dollar i = Some e ->
  (nth_error (Recommendation EV_per_dollar) i = Some Bet <-> 2 # 100 < e)
  /\ (nth_error (Recommendation EV_per_dollar) i = Some Pass <-> ~ 2 # 100 < e)
  /\ (e == 2 # 100 -> nth_error (Recommendation EV_per_dollar) i = Some Pass).
Proof.
  intros Hi. unfold Recommendation, np_where.
  rewrite map_map, nth_error_map, Hi. cbn [option_map].
  destruct (gt e (2 # 100)) eqn:E.
  - apply gt_true in E. repeat split; intros H; try easy; try discriminate H; lra.
  - apply gt_false in E. repeat split; intros H; try easy; try discriminate H; lra.
Qed.

Lemma recommendation_threshold_witness :
  nth_error (Recommendation [21 # 1000; 2 # 100; 5 # 100]) 1 = Some Pass.
Proof.
  apply (recommendation_threshold [21 # 1000; 2 # 100; 5 # 100] 1 (2 # 100));
    reflexivity.
Defined.

(** ** The isotonic calibrator *)

Module IsotonicFacts.
Import Isotonic.

Lemma descending_tail (b : block) (stack : list block) :
  descending (b :: stack) -> descending stack.
Proof.
  unfold descending. destruct stack as [| c stack]; cbn; [trivial | tauto].
Qed.

Lemma push_descending (stack : list block) :
  forall b, descending stack -> descending (push b stack).
Proof.
  induction stack as [| top below IH]; intros b Hd; cbn [push].
  - exact I.
  - destruct (lt (value top) (value b)) eqn:E.
    + apply lt_true in E. split; [exact E | exact Hd].
    + apply IH. eapply descending_tail, Hd.
Qed.

Lemma pava_descending (y_w : list (Q * Q)) : descending (pava y_w).
Proof.
  unfold pava.
  assert (H : forall stack, descending stack ->
              descending (fold_left (fun st yw => push (Block (fst yw) (snd yw) 1) st)
                                    y_w stack)).
  { induction y_w as [| yw rest IH]; intros stack Hd; cbn [fold_left].
    - exact Hd.
    - apply IH, push_descending, Hd. }
  apply H. exact I.
Qed.

Lemma chain_of_Forall (v : Q) (l : list Q) :
  Forall (Qle v) l -> sorted Qle l -> chain Qle v l.
Proof.
  destruct l as [| a l]; cbn; [trivial|].
  intros H Hs. inversion H; subst. now split.
Qed.

Lemma repeat_onto_sorted (v : Q) (n : nat) (acc : list Q) :
  Forall (Qle v) acc -> sorted Qle acc ->
  Forall (Qle v) (repeat v n ++ acc) /\ sorted Qle (repeat v n ++ acc).
Proof.
  intros Hall Hs. induction n as [| n [IHa IHs]]; cbn [repeat app].
  - now split.
  - split.
    + constructor; [apply Qle_refl | exact IHa].
    + cbn [sorted]. now apply chain_of_Forall.
Qed.

Lemma expand_onto_sorted (stack : list block) :
  forall acc,
    descending stack -> sorted Qle acc ->
    (forall b, hd_error stack = Some b -> Forall (Qle (value b)) acc) ->
    sorted Qle (flat_map (fun b => repeat (value b) (size b)) (rev stack) ++ acc).
Proof.
  induction stack as [| b below IH]; intros acc Hd Hs Hhd.
  - exact Hs.
  - cbn [rev]. rewrite flat_map_app, <- app_assoc. cbn [flat_map]. rewrite app_nil_r.
    destruct (repeat_onto_sorted (value b) (size b) acc (Hhd b eq_refl) Hs) as [Ha Hs'].
    apply IH.
    + eapply descending_tail, Hd.
    + exact Hs'.
    + intros b2 Hb2. destruct below as [| b2' below']; [discriminate|].
      injection Hb2 as ->. destruct Hd as [Hlt _]. cbn in Hlt.
      eapply Forall_impl; [|exact Ha]. intros a Hle. cbn beta in Hle. lra.
Qed.

(** The fitted values do not decrease along the breakpoints. *)
Lemma isotonic_regression_sorted (y w : list Q) :
  sorted Qle (isotonic_regression y w).
Proof.
  unfold isotonic_regression, expand.
  rewrite <- (app_nil_r (flat_map _ _)).
  apply expand_onto_sorted.
  - apply pava_descending.
  - exact I.
  - intros b _. constructor.
Qed.

(** Merging equal raw probabilities leaves strictly increasing breakpoints. *)
Lemma make_unique_from_increasing (rest : list (Q * Q)) :
  forall x sum_y n,
  exists tl, map fst (make_unique_from x sum_y n rest) = x :: tl /\ chain Qlt x tl.
Proof.
  induction rest as [| [x' y'] rest IH]; intros x sum_y n; cbn [make_unique_from].
  - exists []. now split.
  - destruct (gt x' x) eqn:E.
    + apply gt_true in E. destruct (IH x' y' 1) as [tl [Heq Hc]].
      exists (x' :: tl). cbn [map fst]. rewrite Heq. now repeat split.
    + apply IH.
Qed.

Lemma make_unique_increasing (l : list (Q * Q)) :
  sorted Qlt (map fst (make_unique l)).
Proof.
  destruct l as [| [x y] rest]; [exact I|]. cbn [make_unique].
  destruct (make_unique_from_increasing rest x y 1) as [tl [-> Hc]]. exact Hc.
Qed.

Lemma combine_rising (xs : list Q) :
  forall ys x0 y0,
    chain Qlt x0 xs -> chain Qle y0 ys -> rising x0 y0 (combine xs ys).
Proof.
  induction xs as [| x1 xs IH]; intros [| y1 ys] x0 y0 Hx Hy; cbn; trivial.
  destruct Hx as [Hx Hxs]. destruct Hy as [Hy Hys]. repeat split; auto.
Qed.

(** A chord through two breakpoints. *)
Lemma chord_slope (x0 y0 x1 y1 : Q) :
  x0 < x1 -> y0 <= y1 ->
  0 <= (y1 - y0) / (x1 - x0) /\ (y1 - y0) / (x1 - x0) * (x1 - x0) == y1 - y0.
Proof.
  intros Hx Hy. split.
  - apply Qle_shift_div_l; lra.
  - field. lra.
Qed.

Lemma chord_monotone (s x0 y0 t1 t2 : Q) :
  0 <= s -> t1 <= t2 -> s * (t1 - x0) + y0 <= s * (t2 - x0) + y0.
Proof.
  intros Hs Ht. assert (0 <= s * (t2 - t1)) by (apply Qmult_le_0_compat; lra). lra.
Qed.

Lemma interp_from_lower (rest : list (Q * Q)) :
  forall x0 y0 t,
    rising x0 y0 rest -> x0 <= t -> y0 <= interp_from x0 y0 rest t.
Proof.
  induction rest as [| [x1 y1] rest IH]; intros x0 y0 t Hr Ht; cbn [interp_from].
  - apply Qle_refl.
  - destruct Hr as [Hx [Hy Hr]]. destruct (chord_slope x0 y0 x1 y1 Hx Hy) as [Hs _].
    assert (Hchord : y0 <= (y1 - y0) / (x1 - x0) * (t - x0) + y0).
    { assert (0 <= (y1 - y0) / (x1 - x0) * (t - x0)) by (apply Qmult_le_0_compat; lra).
      lra. }
    destruct rest as [| pt rest']; [exact Hchord|].
    destruct (gt t x1) eqn:E; [|exact Hchord].
    apply gt_true in E. apply Qle_trans with y1; [exact Hy|].
    apply IH; [exact Hr | lra].
Qed.

(** Interpolation through rising breakpoints is monotone. *)
Lemma interp_from_monotone (rest : list (Q * Q)) :
  forall x0 y0 t1 t2,
    rising x0 y0 rest -> t1 <= t2 ->
    interp_from x0 y0 rest t1 <= interp_from x0 y0 rest t2.
Proof.
  induction rest as [| [x1 y1] rest IH]; intros x0 y0 t1 t2 Hr Ht; cbn [interp_from].
  - apply Qle_refl.
  - destruct Hr as [Hx [Hy Hr]]. destruct (chord_slope x0 y0 x1 y1 Hx Hy) as [Hs Hend].
    destruct rest as [| pt rest']; [now apply chord_monotone|].
    destruct (gt t1 x1) eqn:E1, (gt t2 x1) eqn:E2.
    + now apply IH.
    + apply gt_true in E1. apply gt_false in E2. lra.
    + apply gt_false in E1. apply gt_true in E2.
      apply Qle_trans with y1.
      * pose proof (chord_monotone _ x0 y0 t1 x1 Hs E1). lra.
      * apply interp_from_lower; [exact Hr | lra].
    + now apply chord_monotone.
Qed.

Lemma clip_monotone (lo hi t1 t2 : Q) :
  t1 <= t2 -> clip t1 lo hi <= clip t2 lo hi.
Proof.
  intros Ht. unfold clip.
  apply Q.min_le_compat_r, Q.max_le_compat_r, Ht.
Qed.

(** What a successful fit stores. *)
Lemma fit_thresholds (X y : list Q) (c : IsotonicRegression) :
  fit X y = Return c ->
  sorted Qlt (X_thresholds_ c) /\ sorted Qle (y_thresholds_ c).
Proof.
  unfold fit. destruct (_ && _); [|discriminate].
  intros [= <-]. cbn [X_thresholds_ y_thresholds_]. split.
  - apply make_unique_increasing.
  - apply isotonic_regression_sorted.
Qed.

(** A fit succeeds on every non-empty training set with one label per raw
    probability. *)
Lemma fit_returns (X y : list Q) :
  length X = length y -> X <> [] -> returns (fit X y).
Proof.
  intros Hlen Hne. unfold fit. rewrite Hlen, Nat.eqb_refl.
  destruct y as [| y0 y]; [destruct X; [contradiction | discriminate]|].
  cbn [length Nat.eqb negb andb]. eexists. reflexivity.
Qed.

Lemma f_monotone (c : IsotonicRegression) (t1 t2 : Q) :
  sorted Qlt (X_thresholds_ c) -> sorted Qle (y_thresholds_ c) ->
  t1 <= t2 -> f_ c t1 <= f_ c t2.
Proof.
  intros Hx Hy Ht. unfold f_.
  destruct (X_thresholds_ c) as [| x0 xs], (y_thresholds_ c) as [| y0 ys];
    cbn [combine]; try apply Qle_refl.
  apply interp_from_monotone; [|exact Ht]. now apply combine_rising.
Qed.

(** *** The training points are ordered before they are merged *)

Lemma point_le_total (a b : Q * Q) : point_le a b = false -> point_le b a = true.
Proof.
  unfold point_le. intros H. apply orb_false_iff in H as [Hlt H].
  apply negb_false_iff, Qle_bool_iff in Hlt.
  destruct (lt (fst b) (fst a)) eqn:E; [reflexivity|].
  apply negb_false_iff, Qle_bool_iff in E.
  assert (Heq : fst a == fst b) by lra.
  replace (Qeq_bool (fst a) (fst b)) with true in H
    by (symmetry; now apply Qeq_bool_iff).
  replace (Qeq_bool (fst b) (fst a)) with true
    by (symmetry; apply Qeq_bool_iff; now symmetry).
  cbn in *. apply not_true_iff_false in H. rewrite Qle_bool_iff in H.
  apply Qle_bool_iff. lra.
Qed.

Lemma point_le_fst (a b : Q * Q) : point_le a b = true -> fst a <= fst b.
Proof.
  unfold point_le. intros H. apply orb_true_iff in H as [H | H].
  - apply lt_true in H. lra.
  - apply andb_true_iff in H as [H _]. apply Qeq_bool_iff in H. lra.
Qed.

Lemma insert_fst (a : Q * Q) (l : list (Q * Q)) :
  forall x, Forall (Qle x) (map fst l) -> x <= fst a ->
            Forall (Qle x) (map fst (insert a l)).
Proof.
  induction l as [| b l IH]; intros x Hl Ha; cbn [insert].
  - repeat constructor. exact Ha.
  - destruct (point_le a b); cbn [map].
    + constructor; [exact Ha | exact Hl].
    + inversion Hl; subst. constructor; [assumption | now apply IH].
Qed.

Lemma insert_sorted (a : Q * Q) (l : list (Q * Q)) :
  sorted Qle (map fst l) -> sorted Qle (map fst (insert a l)).
Proof.
  induction l as [| b l IH]; intros Hs; cbn [insert]; [exact I|].
  destruct (point_le a b) eqn:E; cbn [map sorted].
  - split; [now apply point_le_fst | exact Hs].
  - apply point_le_total, point_le_fst in E.
    assert (Htail : sorted Qle (map fst l)).
    { cbn in Hs. destruct l; [exact I | apply Hs]. }
    specialize (IH Htail).
    apply chain_of_Forall; [|exact IH].
    apply insert_fst; [|exact E].
    clear IH Htail E. cbn [map sorted] in Hs.
    revert Hs. generalize (fst b) as x. clear.
    induction l as [| c l IH]; intros x Hs; cbn [map]; constructor.
    + apply Hs.
    + destruct Hs as [Hxc Hs]. eapply Forall_impl; [|apply (IH _ Hs)].
      intros z Hz. cbn beta in Hz. lra.
Qed.

(** The training points are ordered by raw probability, none lost. *)
Lemma sort_sorted (l : list (Q * Q)) :
  sorted Qle (map fst (sort l)) /\ length (sort l) = length l.
Proof.
  unfold sort. induction l as [| a l [IHs IHl]]; cbn [fold_right]; [now split|].
  split; [now apply insert_sorted|].
  cbn [length]. rewrite <- IHl. clear.
  generalize (fold_right insert [] l) as m.
  induction m as [| b m IH]; cbn [insert]; [reflexivity|].
  destruct (point_le a b); cbn [length]; [reflexivity | now rewrite IH].
Qed.

(** *** The fitted values are the values of the map at the breakpoints *)

Lemma push_sizes (stack : list block) :
  forall b,
    list_sum (map size (push b stack)) = (size b + list_sum (map size stack))%nat.
Proof.
  induction stack as [| top below IH]; intros b; cbn [push].
  - reflexivity.
  - destruct (lt (value top) (value b)); [reflexivity|].
    rewrite IH. unfold pool, list_sum. cbn. lia.
Qed.

Lemma pava_sizes (y_w : list (Q * Q)) :
  list_sum (map size (pava y_w)) = length y_w.
Proof.
  unfold pava.
  assert (H : forall stack,
             list_sum (map size (fold_left (fun st yw => push (Block (fst yw) (snd yw) 1) st)
                                           y_w stack))
             = (length y_w + list_sum (map size stack))%nat).
  { induction y_w as [| yw rest IH]; intros stack; cbn [fold_left length].
    - reflexivity.
    - rewrite IH, push_sizes. unfold list_sum. cbn. lia. }
  rewrite H. cbn. lia.
Qed.

Lemma expand_length (stack : list block) :
  length (expand stack) = list_sum (map size stack).
Proof.
  unfold expand. induction stack as [| b below IH]; [reflexivity|].
  cbn [rev map]. rewrite flat_map_app, length_app, IH.
  cbn [flat_map]. rewrite app_nil_r, repeat_length. unfold list_sum. cbn. lia.
Qed.

(** One fitted value per breakpoint. *)
Lemma fit_lengths (X y : list Q) (c : IsotonicRegression) :
  fit X y = Return c -> length (y_thresholds_ c) = length (X_thresholds_ c).
Proof.
  unfold fit. destruct (_ && _); [|discriminate].
  intros [= <-]. cbn [X_thresholds_ y_thresholds_].
  unfold isotonic_regression.
  rewrite expand_length, pava_sizes, length_combine, !length_map. apply Nat.min_id.
Qed.

Lemma rising_later (rest : list (Q * Q)) :
  forall x0 y0 i x v,
    rising x0 y0 rest -> nth_error rest i = Some (x, v) -> x0 < x.
Proof.
  induction rest as [| [x1 y1] rest IH]; intros x0 y0 [| i] x v Hr Hi;
    try discriminate; destruct Hr as [Hx [_ Hr]].
  - now injection Hi as <- _.
  - apply Qlt_trans with x1; [exact Hx | eapply IH; eassumption].
Qed.

(** Interpolation through rising breakpoints passes through each of them. *)
Lemma interp_from_breakpoint (rest : list (Q * Q)) :
  forall x0 y0 i x v,
    rising x0 y0 rest -> nth_error ((x0, y0) :: rest) i = Some (x, v) ->
    interp_from x0 y0 rest x == v.
Proof.
  induction rest as [| [x1 y1] rest IH]; intros x0 y0 i x v Hr Hi.
  - destruct i as [| i]; [|destruct i; discriminate].
    injection Hi as <- <-. reflexivity.
  - pose proof Hr as [Hx [Hy Hr']].
    destruct (chord_slope x0 y0 x1 y1 Hx Hy) as [_ Hend].
    assert (Hchord0 : (y1 - y0) / (x1 - x0) * (x0 - x0) + y0 == y0) by ring.
    assert (Hchord1 : (y1 - y0) / (x1 - x0) * (x1 - x0) + y0 == y1) by lra.
    cbn [interp_from]. destruct i as [| [| i]].
    + injection Hi as <- <-.
      destruct rest; [exact Hchord0|].
      replace (gt x0 x1) with false; [exact Hchord0|].
      symmetry. apply gt_false. lra.
    + injection Hi as <- <-.
      destruct rest; [exact Hchord1|].
      replace (gt x1 x1) with false; [exact Hchord1|].
      symmetry. apply gt_false. lra.
    + cbn [nth_error] in Hi.
      pose proof (rising_later rest x1 y1 i x v Hr' Hi) as Hlt.
      destruct rest as [| pt rest']; [destruct i; discriminate|].
      replace (gt x x1) with true by (symmetry; now apply gt_true).
      apply (IH x1 y1 (S i) x v Hr'). exact Hi.
Qed.

Lemma chain_bounds (xs : list Q) :
  forall x0 d i x,
    chain Qlt x0 xs -> nth_error (x0 :: xs) i = Some x ->
    x0 <= x /\ x <= last (x0 :: xs) d.
Proof.
  induction xs as [| x1 xs IH]; intros x0 d i x Hc Hi.
  - destruct i as [| i]; [|destruct i; discriminate].
    injection Hi as <-. cbn. split; apply Qle_refl.
  - destruct Hc as [Hlt Hc].
    change (last (x0 :: x1 :: xs) d) with (last (x1 :: xs) d).
    destruct i as [| i].
    + injection Hi as <-. split; [apply Qle_refl|].
      destruct (IH x1 d 0%nat x1 Hc eq_refl) as [_ H]. lra.
    + destruct (IH x1 d i x Hc Hi) as [Hlo Hhi]. split; [lra | exact Hhi].
Qed.

Lemma clip_inside (t lo hi : Q) : lo <= t -> t <= hi -> clip t lo hi = t.
Proof.
  intros Hlo Hhi. unfold clip, Qmin, Qmax, GenericMinMax.gmin, GenericMinMax.gmax.
  destruct (t ?= lo) eqn:C1.
  - destruct (t ?= hi) eqn:C2; try reflexivity. rewrite <- Qgt_alt in C2. lra.
  - rewrite <- Qlt_alt in C1. lra.
  - destruct (t ?= hi) eqn:C2; try reflexivity. rewrite <- Qgt_alt in C2. lra.
Qed.

Lemma nth_error_combine_both (xs ys : list Q) :
  forall i x v,
    nth_error xs i = Some x -> nth_error ys i = Some v ->
    nth_error (combine xs ys) i = Some (x, v).
Proof.
  revert ys. induction xs as [| x0 xs IH]; intros [| y0 ys] [| i] x v Hx Hy;
    try discriminate; cbn in *.
  - now injection Hx as ->; injection Hy as ->.
  - now apply IH.
Qed.

(** On a breakpoint of the fit the calibrated value is the fitted value of
    that breakpoint: on the training inputs the map is the fitted step
    function. *)
Lemma transform_breakpoint (X y : list Q) (c : IsotonicRegression) (i : nat) (x v : Q) :
  fit X y = Return c ->
  nth_error (X_thresholds_ c) i = Some x -> nth_error (y_thresholds_ c) i = Some v ->
  transform c x == v.
Proof.
  intros Hfit Hx Hv. destruct (fit_thresholds X y c Hfit) as [Hsx Hsy].
  assert (Hmin : X_min_ c = hd 0 (X_thresholds_ c) /\ X_max_ c = last (X_thresholds_ c) 0).
  { revert Hfit. unfold fit. destruct (_ && _); [|discriminate].
    intros [= <-]. now split. }
  destruct Hmin as [Hmin Hmax].
  unfold transform, f_. rewrite Hmin, Hmax.
  pose proof (nth_error_combine_both _ _ i x v Hx Hv) as Hxv.
  destruct (X_thresholds_ c) as [| x0 xs]; [destruct i; discriminate|].
  destruct (y_thresholds_ c) as [| y0 ys]; [destruct i; discriminate|].
  cbn [combine hd] in *.
  destruct (chain_bounds xs x0 0 i x Hsx Hx) as [Hlo Hhi].
  rewrite clip_inside by assumption.
  apply (interp_from_breakpoint _ x0 y0 i x v); [|exact Hxv].
  now apply combine_rising.
Qed.

End IsotonicFacts.

(** C5. For every fitted calibrator and every two inputs [p1 <= p2], the
    calibrated outputs satisfy [transform p1 <= transform p2]: the calibration
    map is monotone non-decreasing and keeps the rank order of its inputs. *)
Theorem transform_monotone (X y : list Q) (c : Isotonic.IsotonicRegression) (p1 p2 : Q) :
  Isotonic.fit X y = Return c ->
  p1 <= p2 ->
  Isotonic.transform c p1 <= Isotonic.transform c p2.
Proof.
  intros Hfit Hp. destruct (IsotonicFacts.fit_thresholds X y c Hfit) as [Hx Hy].
  unfold Isotonic.transform.
  apply IsotonicFacts.f_monotone; [exact Hx | exact Hy|].
  now apply IsotonicFacts.clip_monotone.
Qed.

Lemma transform_monotone_witness :
  exists c,
    Isotonic.fit [1 # 10; 5 # 10; 3 # 10; 3 # 10; 9 # 10; 7 # 10] [0; 1; 1; 0; 1; 0] = Return c
    /\ Isotonic.transform c (2 # 10) <= Isotonic.transform c (4 # 10).
Proof.
  eexists. split; [reflexivity|].
  apply (transform_monotone [1 # 10; 5 # 10; 3 # 10; 3 # 10; 9 # 10; 7 # 10]
                            [0; 1; 1; 0; 1; 0] _ (2 # 10) (4 # 10)).
  - reflexivity.
  - apply Qle_bool_iff. reflexivity.
Defined.

(** ** The columns of the frame *)

Lemma american_to_prob_returns (odds : Z) : returns (american_to_prob odds).
Proof.
  destruct (Z.lt_ge_cases 0 odds) as [H | H]; eexists.
  - now apply american_to_prob_pos.
  - now apply american_to_prob_nonpos.
Qed.

(** The market column is computed for every column of odds, cell by cell. *)
Lemma p_market_returns (away_moneyline : list Z) :
  exists ps, p_market away_moneyline = Return ps /\ length ps = length away_moneyline.
Proof.
  induction away_moneyline as [| odds rest [ps [Hps Hlen]]]; cbn [p_market].
  - exists []. now split.
  - destruct (american_to_prob_returns odds) as [p ->]. rewrite Hps. cbn [bind].
    exists (p :: ps). split; [reflexivity|]. cbn. now rewrite Hlen.
Qed.

(** Every cell of the blended column lies between its two inputs. *)
Lemma p_blended_between (a : Q) (p_calibrated p_market : list Q) (i : nat) (pc pm : Q) :
  0 <= a <= 1 ->
  nth_error p_calibrated i = Some pc -> nth_error p_market i = Some pm ->
  exists pb, nth_error (p_blended a p_calibrated p_market) i = Some pb
             /\ Qmin pc pm <= pb <= Qmax pc pm.
Proof.
  intros Ha. revert p_market i.
  induction p_calibrated as [| c cs IH]; intros [| m ms] [| i] Hc Hm;
    try discriminate; cbn in *.
  - injection Hc as ->. injection Hm as ->. eexists. split; [reflexivity|].
    now apply blend_between.
  - now apply IH.
Qed.

(** The calibrated column has one cell per row of the frame. *)
Lemma p_calibrated_returns (p_base : list Q) (y : list Z) :
  length p_base = length y -> p_base <> [] ->
  exists ps, p_calibrated p_base y = Return ps /\ length ps = length p_base.
Proof.
  intros Hlen Hne. unfold p_calibrated, Isotonic.fit_transform.
  destruct (IsotonicFacts.fit_returns p_base (map int y)) as [c ->];
    [now rewrite length_map | exact Hne |].
  cbn [bind]. eexists. split; [reflexivity | apply length_map].
Qed.

(** * Further properties of the two scripts *)

(** ** Fractions *)

Lemma frac_lt (a b c d : Q) : 0 < b -> 0 < d -> a * d < c * b -> a / b < c / d.
Proof.
  intros Hb Hd H. apply Qlt_shift_div_r; [exact Hb|].
  assert (E : c / d * b == c * b / d) by (field; lra).
  rewrite E. apply Qlt_shift_div_l; [exact Hd | exact H].
Qed.

Lemma frac_le (a b c d : Q) : 0 < b -> 0 < d -> a * d <= c * b -> a / b <= c / d.
Proof.
  intros Hb Hd H. apply Qle_shift_div_r; [exact Hb|].
  assert (E : c / d * b == c * b / d) by (field; lra).
  rewrite E. apply Qle_shift_div_l; [exact Hd | exact H].
Qed.

(** The value of the converter, with the odds read as a number. *)
Lemma american_to_prob_value (odds : Z) :
  exists p,
    american_to_prob odds = Return p
    /\ ((0 < odds)%Z -> 0 < int odds /\ p == 100 / (int odds + 100))
    /\ ((odds <= 0)%Z -> int odds <= 0 /\ p == - int odds / (- int odds + 100)).
Proof.
  destruct (Z.lt_ge_cases 0 odds) as [Hpos | Hneg]; eexists.
  - split; [now apply american_to_prob_pos|]. split; [|lia].
    intros _. split; [now apply int_pos|]. now rewrite int_add.
  - split; [now apply american_to_prob_nonpos|]. split; [lia|].
    intros _. split.
    + assert (H : int odds < int 1) by (apply int_lt; lia).
      destruct (Z.eq_dec odds 0) as [-> | Hz]; [apply Qle_refl|].
      assert (int odds < int 0) by (apply int_lt; lia). change (int 0) with 0 in *. lra.
    + now rewrite int_add, int_opp.
Qed.

(** ** The odds converter *)

(** X1. The two sides of a line are complementary: for positive odds the
    probability of [odds] and the probability of [-odds] add up to 1. *)
Theorem american_to_prob_complement (odds : Z) :
  (0 < odds)%Z ->
  exists p q,
    american_to_prob odds = Return p
    /\ american_to_prob (- odds) = Return q
    /\ p + q == 1.
Proof.
  intros Hpos.
  destruct (american_to_prob_value odds) as [p [Hp [Hpp _]]].
  destruct (american_to_prob_value (- odds)) as [q [Hq [_ Hqn]]].
  destruct (Hpp Hpos) as [Hx Ep]. destruct Hqn as [_ Eq]; [lia|].
  exists p, q. repeat split; try assumption.
  rewrite Ep, Eq, int_opp. field. lra.
Qed.

Lemma american_to_prob_complement_witness :
  exists p q,
    american_to_prob 110 = Return p
    /\ american_to_prob (- 110) = Return q
    /\ p + q == 1.
Proof. apply (american_to_prob_complement 110). reflexivity. Defined.

(** X3. Even money sits at a magnitude of 100: negative odds give at least
    1/2 exactly when they are -100 or below, and positive odds give at most
    1/2 exactly when they are 100 or above. *)
Theorem american_to_prob_even_money (odds : Z) :
  odds <> 0%Z ->
  exists p,
    american_to_prob odds = Return p
    /\ ((odds < 0)%Z -> (1 # 2 <= p <-> (odds <= -100)%Z))
    /\ ((0 < odds)%Z -> (p <= 1 # 2 <-> (100 <= odds)%Z)).
Proof.
  intros Hz. destruct (american_to_prob_value odds) as [p [Hp [Hpp Hpn]]].
  exists p. split; [exact Hp|]. split; intros Hs.
  - destruct Hpn as [Hx E]; [lia|].
    assert (Hx' : int odds < 0).
    { assert (int odds < int 0) by (apply int_lt; lia). exact H. }
    assert (Ehalf : (1 # 2) == 1 / 2) by reflexivity.
    split; intros H.
    + destruct (Z.le_gt_cases odds (-100)) as [Hle | Hgt]; [exact Hle|].
      exfalso. assert (Hq : int (-100) < int odds) by (apply int_lt; lia).
      change (int (-100)) with (-100 # 1) in Hq.
      assert (p < 1 # 2); [|lra].
      rewrite E, Ehalf. apply frac_lt; lra.
    + assert (Hq : int odds <= int (-100)).
      { unfold int. rewrite <- Zle_Qle. exact H. }
      change (int (-100)) with (-100 # 1) in Hq.
      rewrite E, Ehalf. apply frac_le; lra.
  - destruct (Hpp Hs) as [Hx E].
    assert (Ehalf : (1 # 2) == 1 / 2) by reflexivity.
    split; intros H.
    + destruct (Z.le_gt_cases 100 odds) as [Hle | Hgt]; [exact Hle|].
      exfalso. assert (Hq : int odds < int 100) by (apply int_lt; lia).
      change (int 100) with 100 in Hq.
      assert (1 # 2 < p); [|lra].
      rewrite E, Ehalf. apply frac_lt; lra.
    + assert (Hq : int 100 <= int odds).
      { unfold int. rewrite <- Zle_Qle. exact H. }
      change (int 100) with 100 in Hq.
      rewrite E, Ehalf. apply frac_le; lra.
Qed.

Lemma american_to_prob_even_money_witness :
  exists p,
    american_to_prob (-50) = Return p
    /\ ((-50 < 0)%Z -> (1 # 2 <= p <-> (-50 <= -100)%Z))
    /\ ((0 < -50)%Z -> (p <= 1 # 2 <-> (100 <= -50)%Z)).
Proof. apply (american_to_prob_even_money (-50)). discriminate. Defined.

Lemma american_to_prob_unit (odds : Z) :
  exists p, american_to_prob odds = Return p /\ 0 <= p /\ p < 1.
Proof.
  destruct (american_to_prob_value odds) as [p [Hp [Hpp Hpn]]].
  exists p. split; [exact Hp|].
  destruct (Z.lt_ge_cases 0 odds) as [Hs | Hs].
  - destruct (Hpp Hs) as [Hx E]. rewrite E. split.
    + apply Qle_shift_div_l; lra.
    + apply Qlt_shift_div_r; lra.
  - destruct (Hpn Hs) as [Hx E]. rewrite E. split.
    + apply Qle_shift_div_l; lra.
    + apply Qlt_shift_div_r; lra.
Qed.

(** ** The staking function *)

Lemma payout_multiplier_opp (odds : Z) :
  payout_multiplier (- odds) = payout_multiplier odds.
Proof.
  unfold payout_multiplier.
  destruct (Z.ltb_spec odds 0) as [Hn | Hp], (Z.ltb_spec (- odds) 0) as [Hn' | Hp'];
    try lia; try reflexivity.
  - now rewrite Z.opp_involutive.
  - replace odds with 0%Z by lia. reflexivity.
Qed.

Lemma payout_multiplier_value (odds : Z) :
  exists b,
    payout_multiplier odds = Return b
    /\ 0 <= b
    /\ (odds <> 0%Z -> 0 < b)
    /\ ((0 <= odds)%Z -> b == int odds / 100)
    /\ ((odds < 0)%Z -> b == - int odds / 100).
Proof.
  eexists. split; [apply payout_multiplier_eq|].
  destruct (payout_multiplier_sign odds _ (payout_multiplier_eq odds)) as [Hpos Hzero].
  repeat split.
  - destruct (Z.eq_dec odds 0) as [Hz | Hz]; [rewrite (Hzero Hz); apply Qle_refl|].
    apply Qlt_le_weak, Hpos, Hz.
  - exact Hpos.
  - intros H. replace (odds <? 0)%Z with false by (symmetry; now apply Z.ltb_ge).
    reflexivity.
  - intros H. replace (odds <? 0)%Z with true by (symmetry; now apply Z.ltb_lt).
    now rewrite int_opp.
Qed.

(** X5. Only the magnitude of the odds enters the staking function: odds and
    their opposite give the same Kelly fraction, the same edge and the same
    expected value. *)
Theorem kelly_fraction_sign_blind (p : Q) (odds : Z) :
  kelly_fraction p (- odds) = kelly_fraction p odds
  /\ ev p (- odds) = ev p odds.
Proof.
  unfold kelly_fraction, ev. now rewrite payout_multiplier_opp.
Qed.

(** X7. For odds other than zero a stake is proposed exactly when the edge
    is positive: the Kelly fraction is positive if and only if the edge is,
    and it is 0 if and only if the edge is 0 or negative. *)
Theorem kelly_fraction_positive_iff_edge (p : Q) (odds : Z) :
  odds <> 0%Z ->
  exists f_star edge,
    kelly_fraction p odds = Return (f_star, edge)
    /\ (0 < f_star <-> 0 < edge)
    /\ (f_star == 0 <-> edge <= 0).
Proof.
  intros Hz.
  destruct (payout_multiplier_value odds) as [b [Hb [_ [Hpos _]]]].
  specialize (Hpos Hz).
  do 2 eexists. split; [apply (kelly_fraction_eq p odds b Hb)|].
  replace (gt b 0) with true by (symmetry; now apply gt_true).
  set (edge := b * p - (1 - p)).
  assert (Hdiv : 0 < edge / b <-> 0 < edge).
  { split; intros H.
    - assert (E : edge == edge / b * b) by (field; lra).
      rewrite E. apply Qmult_lt_0_compat; assumption.
    - apply Qlt_shift_div_l; lra. }
  destruct (Q.max_spec 0 (edge / b)) as [[Hlt Hm] | [Hle Hm]]; rewrite Hm.
  - assert (He : 0 < edge) by tauto.
    split; split; intros H; lra.
  - assert (He : edge <= 0).
    { destruct (Qlt_le_dec 0 edge) as [Hc | Hc]; [apply Hdiv in Hc; lra | exact Hc]. }
    split; split; intros H; lra.
Qed.

Lemma kelly_fraction_positive_iff_edge_witness :
  exists f_star edge,
    kelly_fraction (40 # 100) 110 = Return (f_star, edge)
    /\ (0 < f_star <-> 0 < edge)
    /\ (f_star == 0 <-> edge <= 0).
Proof. apply (kelly_fraction_positive_iff_edge (40 # 100) 110). discriminate. Defined.

(** X9. A higher probability never lowers the outcome of the staking
    function: at fixed odds both the edge and the Kelly fraction are
    monotone in [p]. *)
Theorem kelly_fraction_monotone (p1 p2 : Q) (odds : Z) :
  p1 <= p2 ->
  exists f1 e1 f2 e2,
    kelly_fraction p1 odds = Return (f1, e1)
    /\ kelly_fraction p2 odds = Return (f2, e2)
    /\ e1 <= e2 /\ f1 <= f2.
Proof.
  intros Hp.
  destruct (payout_multiplier_value odds) as [b [Hb [Hb0 _]]].
  do 4 eexists.
  split; [apply (kelly_fraction_eq p1 odds b Hb)|].
  split; [apply (kelly_fraction_eq p2 odds b Hb)|].
  assert (He : b * p1 - (1 - p1) <= b * p2 - (1 - p2)).
  { assert (0 <= b * (p2 - p1)) by (apply Qmult_le_0_compat; lra). lra. }
  split; [exact He|].
  destruct (gt b 0) eqn:E; [|apply Qle_refl].
  apply gt_true in E. apply Q.max_le_compat_l.
  apply Qmult_le_compat_r; [exact He|]. apply Qlt_le_weak, Qinv_lt_0_compat, E.
Qed.

Lemma kelly_fraction_monotone_witness :
  exists f1 e1 f2 e2,
    kelly_fraction (50 # 100) 125 = Return (f1, e1)
    /\ kelly_fraction (60 # 100) 125 = Return (f2, e2)
    /\ e1 <= e2 /\ f1 <= f2.
Proof.
  apply (kelly_fraction_monotone (50 # 100) (60 # 100) 125).
  apply Qle_bool_iff. reflexivity.
Defined.

(** ** The blender and the predicted class *)



Lemma p_blended_unit (a : Q) (pcs pms : list Q) :
  0 <= a <= 1 ->
  Forall (fun p => 0 <= p /\ p <= 1) pcs -> Forall (fun p => 0 <= p /\ p < 1) pms ->
  length pcs = length pms ->
  length (p_blended a pcs pms) = length pcs
  /\ Forall (fun p => 0 <= p /\ p <= 1) (p_blended a pcs pms).
Proof.
  intros Ha Hc. revert pms.
  induction Hc as [| pc pcs [Hc0 Hc1] _ IH]; intros [| pm pms] Hm Hlen;
    try discriminate; cbn [p_blended length].
  - split; [reflexivity | constructor].
  - inversion Hm as [| ? ? [Hm0 Hm1] Hm']; subst.
    destruct (IH pms Hm') as [IHl IHa]; [now injection Hlen|].
    split; [now rewrite IHl|]. constructor; [|exact IHa].
    pose proof (blend_between a pc pm Ha) as [Hlo Hhi].
    assert (0 <= Qmin pc pm) by (apply Q.min_glb; assumption).
    assert (Qmax pc pm <= 1) by (apply Q.max_lub; lra).
    split; lra.
Qed.

(** X11. The blending stage as a whole: for a calibrated column of
    probabilities and any column of odds with one price per row, the market
    column is computed without failure and the blended column has one cell
    per row, each a probability between 0 and 1. *)
Theorem p_blended_column (a : Q) (p_calibrated : list Q) (away_moneyline : list Z) :
  0 <= a <= 1 ->
  Forall (fun p => 0 <= p /\ p <= 1) p_calibrated ->
  length p_calibrated = length away_moneyline ->
  exists pm,
    p_market away_moneyline = Return pm
    /\ length (p_blended a p_calibrated pm) = length away_moneyline
    /\ Forall (fun p => 0 <= p /\ p <= 1) (p_blended a p_calibrated pm).
Proof.
  intros Ha Hc Hlen.
  assert (Hm : exists pm, p_market away_moneyline = Return pm
                          /\ length pm = length away_moneyline
                          /\ Forall (fun p => 0 <= p /\ p < 1) pm).
  { clear. induction away_moneyline as [| odds rest [ps [Hps [Hlen Hall]]]]; cbn [p_market].
    - exists []. repeat split. constructor.
    - destruct (american_to_prob_unit odds) as [p [-> Hp]]. rewrite Hps. cbn [bind].
      exists (p :: ps). repeat split; [cbn; now rewrite Hlen | constructor; assumption]. }
  destruct Hm as [pm [Hpm [Hl Hall]]]. exists pm. split; [exact Hpm|].
  destruct (p_blended_unit a p_calibrated pm Ha Hc Hall) as [Hl' Ha']; [congruence|].
  split; [congruence | exact Ha'].
Qed.

Lemma p_blended_column_witness :
  exists pm,
    p_market [-120; 0; 110]%Z = Return pm
    /\ length (p_blended alpha [55 # 100; 1; 0] pm) = length [-120; 0; 110]%Z
    /\ Forall (fun p => 0 <= p /\ p <= 1) (p_blended alpha [55 # 100; 1; 0] pm).
Proof.
  apply (p_blended_column alpha [55 # 100; 1; 0] [-120; 0; 110]%Z).
  - split; apply Qle_bool_iff; reflexivity.
  - repeat constructor; apply Qle_bool_iff; reflexivity.
  - reflexivity.
Defined.

(** ** The results script: rounding *)

Lemma round_half_even_near (y : Q) :
  inject_Z (round_half_even y) - (1 # 2) <= y
  /\ y <= inject_Z (round_half_even y) + (1 # 2).
Proof.
  pose proof (Qfloor_le y) as Hlo. pose proof (Qlt_floor y) as Hhi.
  rewrite inject_Z_plus in Hhi. change (inject_Z 1) with 1 in Hhi.
  unfold round_half_even.
  destruct (lt (y - inject_Z (Qfloor y)) (1 # 2)) eqn:E1.
  - apply lt_true in E1. split; lra.
  - apply gt_false in E1.
    destruct (gt (y - inject_Z (Qfloor y)) (1 # 2)) eqn:E2.
    + rewrite inject_Z_plus. change (inject_Z 1) with 1. split; lra.
    + apply gt_false in E2. destruct (Z.even (Qfloor y)).
      * split; lra.
      * rewrite inject_Z_plus. change (inject_Z 1) with 1. split; lra.
Qed.

Lemma round_half_even_bounds (lo hi : Z) (y : Q) :
  inject_Z lo <= y -> y <= inject_Z hi ->
  (lo <= round_half_even y <= hi)%Z.
Proof.
  intros Hlo Hhi. destruct (round_half_even_near y) as [Hn1 Hn2].
  split.
  - assert (H : inject_Z (lo - 1) < inject_Z (round_half_even y)).
    { assert (E : inject_Z (lo - 1) == inject_Z lo - 1)
        by (unfold Z.sub; rewrite inject_Z_plus; reflexivity).
      rewrite E. lra. }
    rewrite <- Zlt_Qlt in H. lia.
  - assert (H : inject_Z (round_half_even y) < inject_Z (hi + 1)).
    { rewrite inject_Z_plus. change (inject_Z 1) with 1. lra. }
    rewrite <- Zlt_Qlt in H. lia.
Qed.

Lemma round_half_even_eq (x y : Q) : x == y -> round_half_even x = round_half_even y.
Proof.
  intros E. unfold round_half_even. rewrite (Qfloor_comp x y E).
  assert (El : lt (x - inject_Z (Qfloor y)) (1 # 2) = lt (y - inject_Z (Qfloor y)) (1 # 2)).
  { unfold lt. f_equal. apply eq_true_iff_eq. rewrite !Qle_bool_iff, E. tauto. }
  assert (Eg : gt (x - inject_Z (Qfloor y)) (1 # 2) = gt (y - inject_Z (Qfloor y)) (1 # 2)).
  { unfold gt. f_equal. apply eq_true_iff_eq. rewrite !Qle_bool_iff, E. tauto. }
  now rewrite El, Eg.
Qed.

Lemma round_half_even_Z (n : Z) : round_half_even (inject_Z n) = n.
Proof.
  unfold round_half_even. rewrite Qfloor_Z.
  replace (lt (inject_Z n - inject_Z n) (1 # 2)) with true; [reflexivity|].
  symmetry. apply lt_true. lra.
Qed.

Lemma round_half_even_monotone (x y : Q) :
  x <= y -> (round_half_even x <= round_half_even y)%Z.
Proof.
  intros Hxy.
  destruct (round_half_even_near x) as [Hx _]. destruct (round_half_even_near y) as [_ Hy].
  destruct (Z.le_gt_cases (round_half_even x) (round_half_even y)) as [H | H]; [exact H|].
  exfalso.
  assert (Hq : inject_Z (round_half_even y) + 1 <= inject_Z (round_half_even x)).
  { change 1 with (inject_Z 1). rewrite <- inject_Z_plus, <- Zle_Qle. lia. }
  assert (E : x == y) by lra.
  apply round_half_even_eq in E. lia.
Qed.

Lemma round_eq (x y : Q) (ndigits : Z) : x == y -> round x ndigits == round y ndigits.
Proof.
  intros E. unfold round.
  rewrite (round_half_even_eq (x * int (10 ^ ndigits)) (y * int (10 ^ ndigits)));
    [reflexivity | now rewrite E].
Qed.

(** Rounding to two digits keeps a number between two integers that bound
    it. *)
Lemma round_2_bounds (lo hi : Z) (x : Q) :
  int lo <= x -> x <= int hi -> int lo <= round x 2 /\ round x 2 <= int hi.
Proof.
  intros Hlo Hhi. unfold round. change (int (10 ^ 2)) with 100.
  assert (H : (lo * 100 <= round_half_even (x * 100) <= hi * 100)%Z).
  { apply round_half_even_bounds; rewrite inject_Z_mult;
      change (inject_Z 100) with 100; unfold int in *; lra. }
  destruct H as [H1 H2]. rewrite Zle_Qle in H1, H2.
  rewrite inject_Z_mult in H1, H2. change (inject_Z 100) with 100 in H1, H2.
  unfold int in *. split.
  - apply Qle_shift_div_l; [reflexivity | exact H1].
  - apply Qle_shift_div_r; [reflexivity | exact H2].
Qed.

(** ** The results script: counting the bets *)

Lemma is_bet_Recommendation (EV_per_dollar : list Q) :
  is_bet (Recommendation EV_per_dollar) = map (fun e => gt e (2 # 100)) EV_per_dollar.
Proof.
  unfold is_bet, Recommendation, np_where. rewrite !map_map.
  apply map_ext. intros e. now destruct (gt e (2 # 100)).
Qed.

Lemma mask_sum_filter (mask : list bool) :
  mask_sum mask = Z.of_nat (length (filter (fun b : bool => b) mask)).
Proof.
  induction mask as [| b mask IH]; [reflexivity|].
  cbn [mask_sum filter]. rewrite IH. destruct b; cbn [length]; lia.
Qed.

Lemma select_filter {A : Type} (f : A -> bool) (col : list A) :
  select (map f col) col = filter f col.
Proof.
  induction col as [| c col IH]; [reflexivity|].
  cbn [map select filter]. rewrite IH. reflexivity.
Qed.

Lemma mask_and_selected (m1 m2 : list bool) :
  (0 <= selected_rows (mask_and m1 m2) <= selected_rows m1)%Z.
Proof.
  unfold selected_rows. split; [lia|]. apply Nat2Z.inj_le.
  revert m2. induction m1 as [| b1 m1 IH]; intros [| b2 m2]; cbn [mask_and filter length];
    try lia.
  specialize (IH m2). destruct b1, b2; cbn [andb length]; lia.
Qed.

(** X12. The number of bets placed is the number of rows whose expected
    value is strictly above the cutoff 0.02: comparing the labels with the
    bet label recovers the comparison that produced them. *)
Theorem total_bets_counts_cutoff (EV_per_dollar : list Q) :
  total_bets (Recommendation EV_per_dollar)
  = Z.of_nat (length (filter (fun e => gt e (2 # 100)) EV_per_dollar)).
Proof.
  unfold total_bets. rewrite mask_sum_filter, is_bet_Recommendation.
  f_equal. induction EV_per_dollar as [| e evs IH]; [reflexivity|].
  cbn [map filter]. destruct (gt e (2 # 100)); cbn [length]; now rewrite IH.
Qed.

(** X13. The winning bets are among the bets placed, and the bets placed are
    among the rows: [0 <= won_bets <= total_bets <= number of rows], for any
    column of labels and any column of results. *)
Theorem won_bets_le_total_bets (recommendation : list string) (Actual_Result : list Z) :
  (0 <= won_bets recommendation Actual_Result
   /\ won_bets recommendation Actual_Result <= total_bets recommendation
   /\ total_bets recommendation <= Z.of_nat (length recommendation))%Z.
Proof.
  unfold won_bets, total_bets.
  pose proof (mask_and_selected (is_bet recommendation)
                (map (fun a => (a =? 1)%Z) Actual_Result)) as [H0 H1].
  rewrite mask_sum_filter. fold (selected_rows (is_bet recommendation)).
  repeat split; try assumption.
  unfold selected_rows, is_bet. apply Nat2Z.inj_le.
  etransitivity; [apply filter_length_le|]. now rewrite length_map.
Qed.

(** ** The results script: accuracy and return *)

Lemma selected_rows_map {A : Type} (f : A -> bool) (col : list A) :
  selected_rows (map f col) = Z.of_nat (length (filter f col)).
Proof.
  unfold selected_rows. f_equal.
  induction col as [| c col IH]; [reflexivity|].
  cbn [map filter]. destruct (f c); cbn [length]; now rewrite IH.
Qed.

(** X14. The model accuracy is always produced: without any bet it is 0 and
    no division is attempted, and otherwise it is a number between 0 and 100;
    it is 100 when every bet placed has won and 0 when none has. *)
Theorem model_accuracy_range (recommendation : list string) (Actual_Result : list Z) :
  let won := won_bets recommendation Actual_Result in
  let total := total_bets recommendation in
  exists a,
    model_accuracy won total = Return a
    /\ 0 <= a /\ a <= 100
    /\ (total = 0%Z -> a = 0)
    /\ ((0 < total)%Z -> won = total -> a == 100)
    /\ (won = 0%Z -> a == 0).
Proof.
  intros won total.
  assert (Hwt : (0 <= won <= total)%Z).
  { subst won total. unfold won_bets, total_bets. rewrite mask_sum_filter.
    apply mask_and_selected. }
  unfold model_accuracy. destruct (Z.gtb_spec total 0) as [Hpos | Hzero].
  - assert (Ht : 0 < int total) by (apply int_pos; lia).
    assert (Hw0 : 0 <= int won).
    { unfold int. change 0 with (inject_Z 0). rewrite <- Zle_Qle. lia. }
    assert (Hw1 : int won <= int total).
    { unfold int. rewrite <- Zle_Qle. lia. }
    rewrite truediv_nonzero by lra. cbn [bind].
    set (q := int won / int total).
    assert (Hq0 : 0 <= q) by (apply Qle_shift_div_l; lra).
    assert (Hq1 : q <= 1) by (apply Qle_shift_div_r; lra).
    destruct (round_2_bounds 0 100 (q * 100)) as [Hlo Hhi];
      [change (int 0) with 0; lra | change (int 100) with 100; lra |].
    exists (round (q * 100) 2). split; [reflexivity|].
    split; [exact Hlo|]. split; [exact Hhi|]. split; [lia|]. split.
    + intros _ E. rewrite (round_eq (q * 100) 100); [reflexivity|].
      subst q. rewrite E. field. lra.
    + intros E. rewrite (round_eq (q * 100) 0); [reflexivity|].
      subst q. rewrite E. change (int 0) with 0. field. lra.
  - exists 0. split; [reflexivity|]. split; [apply Qle_refl|].
    split; [discriminate|]. split; [reflexivity|]. split; [lia | reflexivity].
Qed.

Lemma series_mean_nan (s : list Q) : series_mean s = NaN <-> s = [].
Proof. destruct s; cbn; split; intros H; (reflexivity || discriminate). Qed.

Lemma filter_empty_length {A : Type} (f : A -> bool) (col : list A) :
  filter f col = [] <-> Z.of_nat (length (filter f col)) = 0%Z.
Proof.
  destruct (filter f col); cbn [length]; split; intros H;
    (reflexivity || discriminate || lia).
Qed.

(** X15. The average expected value of the bets placed is NaN exactly when
    no bet is placed, that is when no row has an expected value above the
    cutoff, and the return is NaN in exactly the same case. *)
Theorem avg_ev_nan_iff_no_bets (EV_per_dollar : list Q) :
  let recommendation := Recommendation EV_per_dollar in
  (avg_ev recommendation EV_per_dollar = NaN <-> total_bets recommendation = 0%Z)
  /\ (roi (avg_ev recommendation EV_per_dollar) = NaN <-> total_bets recommendation = 0%Z).
Proof.
  intros recommendation. subst recommendation.
  unfold avg_ev, total_bets.
  rewrite mask_sum_filter, is_bet_Recommendation, select_filter.
  fold (selected_rows (map (fun e => gt e (2 # 100)) EV_per_dollar)).
  rewrite selected_rows_map, <- filter_empty_length.
  split; [apply series_mean_nan|].
  rewrite <- series_mean_nan.
  destruct (series_mean (filter (fun e => gt e (2 # 100)) EV_per_dollar));
    cbn; split; intros H; (reflexivity || discriminate).
Qed.

(** X16. The table and the count agree: the winning bets counted are exactly
    the rows that carry the bet label and whose outcome column reads "Yes",
    whatever values the result column holds. *)
Theorem won_bets_are_yes_rows (recommendation : list string) (Actual_Result : list Z) :
  won_bets recommendation Actual_Result
  = Z.of_nat (length (filter
      (fun row : string * option string =>
         String.eqb (fst row) Bet
         && match snd row with
            | Some label => String.eqb label "Yes"
            | None => false
            end)
      (combine recommendation (Came_True Actual_Result)))).
Proof.
  unfold won_bets, selected_rows. f_equal. revert Actual_Result.
  induction recommendation as [| r rs IH]; intros [| a acts]; try reflexivity.
  cbn [is_bet map mask_and Came_True combine filter fst snd].
  fold (is_bet rs). fold (Came_True acts).
  assert (E : (a =? 1)%Z
              = match dict_get came_true_dict a with
                | Some label => String.eqb label "Yes"
                | None => false
                end).
  { cbn [came_true_dict dict_get].
    destruct (a =? 1)%Z; [reflexivity|]. destruct (a =? 0)%Z; reflexivity. }
  rewrite <- E.
  destruct (String.eqb r Bet && (a =? 1)%Z); cbn [length]; now rewrite IH.
Qed.

(** * Binary64 arithmetic: rounding *)

Module Binary64Facts.
Import Binary64.

(** ** Powers of two *)

Lemma pow2_pos (e : Z) : 0 < pow2 e.
Proof. apply Qpower_0_lt. reflexivity. Qed.

Lemma pow2_add (a b : Z) : pow2 (a + b) == pow2 a * pow2 b.
Proof. apply Qpower_plus. discriminate. Qed.

Lemma pow2_le (a b : Z) : (a <= b)%Z -> pow2 a <= pow2 b.
Proof. intros H. apply Qpower_le_compat_l; [exact H | discriminate]. Qed.

Lemma pow2_lt (a b : Z) : (a < b)%Z -> pow2 a < pow2 b.
Proof. intros H. apply Qpower_lt_compat_l; [exact H | reflexivity]. Qed.

Lemma pow2_lt_inv (a b : Z) : pow2 a < pow2 b -> (a < b)%Z.
Proof. intros H. apply (Qpower_lt_compat_l_inv 2); [exact H | reflexivity]. Qed.

Lemma pow2_Z (k : Z) : (0 <= k)%Z -> inject_Z (2 ^ k) == pow2 k.
Proof. intros H. unfold pow2. now rewrite Zpower_Qpower. Qed.

Lemma pow2_succ (a : Z) : pow2 (a + 1) == 2 * pow2 a.
Proof. rewrite pow2_add. change (pow2 1) with 2. ring. Qed.

(** ** The binary exponent *)

Lemma log2_bracket (n : Z) :
  (0 < n)%Z -> pow2 (Z.log2 n) <= inject_Z n /\ inject_Z n < 2 * pow2 (Z.log2 n).
Proof.
  intros Hn. destruct (Z.log2_spec n Hn) as [Hlo Hhi].
  pose proof (Z.log2_nonneg n) as H0.
  rewrite <- pow2_succ, <- !pow2_Z by lia.
  rewrite <- Zle_Qle, <- Zlt_Qlt. split; [exact Hlo|].
  now rewrite Z.add_1_r.
Qed.

Lemma ilog2_spec (q : Q) :
  0 < q -> pow2 (ilog2 q) <= q /\ q < pow2 (ilog2 q + 1).
Proof.
  intros Hq. unfold ilog2.
  set (n := Qnum q). set (d := Zpos (Qden q)).
  set (e0 := (Z.log2 n - Z.log2 d)%Z).
  assert (Hn : (0 < n)%Z).
  { subst n. destruct q as [qn qd]. unfold Qlt in Hq. cbn in *. lia. }
  assert (Eq : q == inject_Z n / inject_Z d).
  { subst n d. destruct q as [qn qd]. apply Qmake_Qdiv. }
  destruct (log2_bracket n Hn) as [Hn1 Hn2].
  destruct (log2_bracket d eq_refl) as [Hd1 Hd2].
  assert (Hd : 0 < inject_Z d) by reflexivity.
  assert (Esplit : pow2 (Z.log2 n) == pow2 e0 * pow2 (Z.log2 d)).
  { rewrite <- pow2_add. subst e0. now replace (Z.log2 n - Z.log2 d + Z.log2 d)%Z
      with (Z.log2 n) by lia. }
  pose proof (pow2_pos e0) as HA. pose proof (pow2_pos (Z.log2 d)) as HL.
  assert (Hup : q < pow2 (e0 + 1)).
  { rewrite Eq, pow2_succ. apply Qlt_shift_div_r; [exact Hd|].
    assert (pow2 e0 * pow2 (Z.log2 d) <= pow2 e0 * inject_Z d)
      by (apply Qmult_le_l; assumption).
    lra. }
  assert (Hlow : pow2 e0 < 2 * q).
  { rewrite Eq.
    assert (E : 2 * (inject_Z n / inject_Z d) == 2 * inject_Z n / inject_Z d)
      by (field; lra).
    rewrite E. apply Qlt_shift_div_l; [exact Hd|].
    assert (pow2 e0 * inject_Z d < pow2 e0 * (2 * pow2 (Z.log2 d)))
      by (apply Qmult_lt_l; assumption).
    lra. }
  destruct (Qle_bool (pow2 e0) q) eqn:E.
  - apply Qle_bool_iff in E. now split.
  - apply not_true_iff_false in E. rewrite Qle_bool_iff in E. apply Qnot_le_lt in E.
    replace (e0 - 1 + 1)%Z with e0 by lia. split; [|exact E].
    pose proof (pow2_succ (e0 - 1)) as Es.
    replace (e0 - 1 + 1)%Z with e0 in Es by lia. lra.
Qed.

Lemma ilog2_unique (q : Q) (e : Z) :
  0 < q -> pow2 e <= q -> q < pow2 (e + 1) -> ilog2 q = e.
Proof.
  intros Hq Hlo Hhi. destruct (ilog2_spec q Hq) as [Slo Shi].
  assert (H1 : (ilog2 q < e + 1)%Z) by (apply pow2_lt_inv; lra).
  assert (H2 : (e < ilog2 q + 1)%Z) by (apply pow2_lt_inv; lra).
  lia.
Qed.

Lemma ilog2_eq (x y : Q) : 0 < x -> x == y -> ilog2 x = ilog2 y.
Proof.
  intros Hx E. symmetry. destruct (ilog2_spec x Hx) as [Hlo Hhi].
  apply ilog2_unique; lra.
Qed.

Lemma ilog2_monotone (x y : Q) : 0 < x -> x <= y -> (ilog2 x <= ilog2 y)%Z.
Proof.
  intros Hx Hxy.
  destruct (ilog2_spec x Hx) as [Hlo _]. destruct (ilog2_spec y) as [_ Hhi]; [lra|].
  assert (H : (ilog2 x < ilog2 y + 1)%Z) by (apply pow2_lt_inv; lra).
  lia.
Qed.

Lemma ilog2_below (q : Q) (k : Z) : 0 < q -> q < pow2 (k + 1) -> (ilog2 q <= k)%Z.
Proof.
  intros Hq H. destruct (ilog2_spec q Hq) as [Hlo _].
  assert (Hk : (ilog2 q < k + 1)%Z) by (apply pow2_lt_inv; lra).
  lia.
Qed.

(** ** Rounding a positive number *)

Lemma ulp_pos (q : Q) : 0 < ulp q.
Proof. apply pow2_pos. Qed.

Lemma ulp_eq (x y : Q) : 0 < x -> x == y -> ulp x = ulp y.
Proof. intros Hx E. unfold ulp. now rewrite (ilog2_eq x y Hx E). Qed.

Lemma rnd_pos_eq (x y : Q) : 0 < x -> x == y -> rnd_pos x == rnd_pos y.
Proof.
  intros Hx E. unfold rnd_pos. rewrite (ulp_eq x y Hx E).
  rewrite (round_half_even_eq (x / ulp y) (y / ulp y)); [reflexivity|].
  now rewrite E.
Qed.

Lemma scaled_lower (k : Z) (u q : Q) :
  0 < u -> inject_Z k * u <= q ->
  inject_Z k * u <= inject_Z (round_half_even (q / u)) * u.
Proof.
  intros Hu H. apply Qmult_le_compat_r; [|lra].
  rewrite <- Zle_Qle.
  pose proof (round_half_even_monotone (inject_Z k) (q / u)) as Hm.
  rewrite round_half_even_Z in Hm. apply Hm. apply Qle_shift_div_l; assumption.
Qed.

Lemma scaled_upper (k : Z) (u q : Q) :
  0 < u -> q <= inject_Z k * u ->
  inject_Z (round_half_even (q / u)) * u <= inject_Z k * u.
Proof.
  intros Hu H. apply Qmult_le_compat_r; [|lra].
  rewrite <- Zle_Qle.
  pose proof (round_half_even_monotone (q / u) (inject_Z k)) as Hm.
  rewrite round_half_even_Z in Hm. apply Hm. apply Qle_shift_div_r; assumption.
Qed.

Lemma rnd_pos_near (q : Q) :
  rnd_pos q - ulp q / 2 <= q /\ q <= rnd_pos q + ulp q / 2.
Proof.
  unfold rnd_pos. pose proof (ulp_pos q) as Hu.
  destruct (round_half_even_near (q / ulp q)) as [H1 H2].
  set (m := inject_Z (round_half_even (q / ulp q))) in *.
  assert (E : q / ulp q * ulp q == q) by (field; lra).
  assert (G1 : (m - (1 # 2)) * ulp q <= q / ulp q * ulp q)
    by (apply Qmult_le_compat_r; lra).
  assert (G2 : q / ulp q * ulp q <= (m + (1 # 2)) * ulp q)
    by (apply Qmult_le_compat_r; lra).
  assert (E1 : (m - (1 # 2)) * ulp q == m * ulp q - ulp q / 2) by field.
  assert (E2 : (m + (1 # 2)) * ulp q == m * ulp q + ulp q / 2) by field.
  split; lra.
Qed.

Lemma rnd_pos_nonneg (q : Q) : 0 <= q -> 0 <= rnd_pos q.
Proof.
  intros Hq. pose proof (ulp_pos q) as Hu.
  pose proof (scaled_lower 0 (ulp q) q Hu) as H.
  unfold rnd_pos. change (inject_Z 0) with 0 in H. lra.
Qed.

Lemma pow2_53_split (e : Z) : inject_Z (2 ^ 53) * pow2 (e - 52) == pow2 (e + 1).
Proof.
  rewrite pow2_Z by lia. rewrite <- pow2_add. now replace (53 + (e - 52))%Z with (e + 1)%Z by lia.
Qed.

Lemma pow2_52_split (e : Z) : inject_Z (2 ^ 52) * pow2 (e - 52) == pow2 e.
Proof.
  rewrite pow2_Z by lia. rewrite <- pow2_add. now replace (52 + (e - 52))%Z with e by lia.
Qed.

Lemma rnd_pos_upper (q : Q) :
  0 < q -> rnd_pos q <= pow2 (Z.max (ilog2 q) emin + 1).
Proof.
  intros Hq. destruct (ilog2_spec q Hq) as [_ Hhi].
  rewrite <- pow2_53_split. apply scaled_upper; [apply pow2_pos|].
  rewrite pow2_53_split.
  apply Qle_trans with (pow2 (ilog2 q + 1)); [lra | apply pow2_le; lia].
Qed.

Lemma rnd_pos_lower (q : Q) :
  0 < q -> (emin <= ilog2 q)%Z -> pow2 (ilog2 q) <= rnd_pos q.
Proof.
  intros Hq He. destruct (ilog2_spec q Hq) as [Hlo _].
  unfold rnd_pos, ulp. rewrite Z.max_l by lia.
  rewrite <- (pow2_52_split (ilog2 q)) at 1.
  apply scaled_lower; [apply pow2_pos|]. now rewrite pow2_52_split.
Qed.

Lemma rnd_pos_monotone (x y : Q) : 0 < x -> x <= y -> rnd_pos x <= rnd_pos y.
Proof.
  intros Hx Hxy. assert (Hy : 0 < y) by lra.
  pose proof (ilog2_monotone x y Hx Hxy) as He.
  destruct (Z.eq_dec (Z.max (ilog2 x) emin) (Z.max (ilog2 y) emin)) as [E | E].
  - unfold rnd_pos, ulp. rewrite E.
    set (u := pow2 (Z.max (ilog2 y) emin - 52)).
    assert (Hu : 0 < u) by apply pow2_pos.
    apply Qmult_le_compat_r; [|lra]. rewrite <- Zle_Qle.
    apply round_half_even_monotone. apply Qmult_le_compat_r; [exact Hxy|].
    apply Qlt_le_weak, Qinv_lt_0_compat, Hu.
  - apply Qle_trans with (pow2 (Z.max (ilog2 x) emin + 1)); [now apply rnd_pos_upper|].
    apply Qle_trans with (pow2 (ilog2 y)); [apply pow2_le; lia|].
    apply rnd_pos_lower; [exact Hy | lia].
Qed.

(** ** Rounding *)

Lemma rnd_positive (q : Q) : 0 < q -> rnd q = rnd_pos q.
Proof.
  intros H. unfold rnd. destruct q as [[| n | n] d]; try reflexivity;
    unfold Qlt in H; cbn in H; lia.
Qed.

Lemma rnd_negative (q : Q) : q < 0 -> rnd q = - rnd_pos (- q).
Proof.
  intros H. unfold rnd. destruct q as [[| n | n] d]; try reflexivity;
    unfold Qlt in H; cbn in H; lia.
Qed.

Lemma rnd_zero (q : Q) : q == 0 -> rnd q = 0.
Proof.
  intros H. unfold rnd. destruct q as [[| n | n] d]; try reflexivity;
    unfold Qeq in H; cbn in H; lia.
Qed.

Lemma rnd_eq (x y : Q) : x == y -> rnd x == rnd y.
Proof.
  intros E. destruct (Q_dec x 0) as [[H | H] | H].
  - rewrite (rnd_negative x H), (rnd_negative y) by lra.
    apply Qopp_comp. apply rnd_pos_eq; [lra | now rewrite E].
  - rewrite (rnd_positive x H), (rnd_positive y) by lra. now apply rnd_pos_eq.
  - rewrite (rnd_zero x H), (rnd_zero y) by lra. reflexivity.
Qed.

Lemma rnd_sign (q : Q) : (0 <= q -> 0 <= rnd q) /\ (q <= 0 -> rnd q <= 0).
Proof.
  destruct (Q_dec q 0) as [[H | H] | H].
  - rewrite (rnd_negative q H). pose proof (rnd_pos_nonneg (- q)).
    split; intros; lra.
  - rewrite (rnd_positive q H). pose proof (rnd_pos_nonneg q).
    split; intros; lra.
  - rewrite (rnd_zero q H). split; intros; lra.
Qed.

(** Rounding keeps the order. *)
Lemma rnd_monotone (x y : Q) : x <= y -> rnd x <= rnd y.
Proof.
  intros Hxy. destruct (Qlt_le_dec 0 x) as [Hx | Hx].
  - rewrite (rnd_positive x Hx), (rnd_positive y) by lra.
    now apply rnd_pos_monotone.
  - destruct (Qlt_le_dec y 0) as [Hy | Hy].
    + rewrite (rnd_negative y Hy), (rnd_negative x) by lra.
      apply Qopp_le_compat. apply rnd_pos_monotone; lra.
    + destruct (rnd_sign x) as [_ H1]. destruct (rnd_sign y) as [H2 _].
      specialize (H1 Hx). specialize (H2 Hy). lra.
Qed.

Lemma rnd_opp (q : Q) : rnd (- q) == - rnd q.
Proof.
  destruct (Q_dec q 0) as [[H | H] | H].
  - rewrite (rnd_negative q H), (rnd_positive (- q)) by lra. ring.
  - rewrite (rnd_positive q H), (rnd_negative (- q)) by lra.
    rewrite (rnd_pos_eq (- - q) q); [reflexivity | lra | ring].
  - rewrite (rnd_zero q H), (rnd_zero (- q)) by lra. reflexivity.
Qed.

(** A number with a significand of at most 53 bits on the binary64 grid is
    a binary64 number. *)
Lemma rnd_pos_grid (m k : Z) :
  (0 < m <= 2 ^ 53)%Z -> (emin - 52 <= k)%Z -> ((m < 2 ^ 52)%Z -> k = (emin - 52)%Z) ->
  rnd_pos (inject_Z m * pow2 k) == inject_Z m * pow2 k.
Proof.
  intros [Hm0 Hm1] Hk Hsub.
  set (r := inject_Z m * pow2 k).
  pose proof (pow2_pos k) as Hpk.
  assert (Hm0q : 0 < inject_Z m) by (change 0 with (inject_Z 0); now rewrite <- Zlt_Qlt).
  assert (Hr : 0 < r) by (apply Qmult_lt_0_compat; assumption).
  assert (E52 : pow2 (k + 52) == inject_Z (2 ^ 52) * pow2 k).
  { rewrite pow2_add, pow2_Z by lia. ring. }
  assert (E53 : pow2 (k + 53) == inject_Z (2 ^ 53) * pow2 k).
  { rewrite pow2_add, pow2_Z by lia. ring. }
  assert (Hgrid : forall t N, ilog2 r = t -> (emin <= t \/ (t < emin /\ k = emin - 52))%Z ->
                    r == inject_Z N * pow2 (Z.max t emin - 52) ->
                    rnd_pos r == r).
  { intros t N Ht _ EN. unfold rnd_pos, ulp. rewrite Ht.
    set (u := pow2 (Z.max t emin - 52)) in *.
    assert (Hu : 0 < u) by apply pow2_pos.
    rewrite (round_half_even_eq (r / u) (inject_Z N)).
    - rewrite round_half_even_Z. now rewrite EN.
    - rewrite EN. field. lra. }
  destruct (Z.lt_ge_cases m (2 ^ 52)) as [Hs | Hn].
  - (* below the normal range *)
    specialize (Hsub Hs). subst k.
    assert (Hlt : r < pow2 emin).
    { rewrite <- (pow2_52_split emin). subst r. apply Qmult_lt_compat_r; [exact Hpk|].
      now rewrite <- Zlt_Qlt. }
    assert (Ht : (ilog2 r <= emin - 1)%Z).
    { apply ilog2_below; [exact Hr|]. now replace (emin - 1 + 1)%Z with emin by lia. }
    apply (Hgrid (ilog2 r) m eq_refl); [right; lia|].
    rewrite Z.max_r by lia. reflexivity.
  - destruct (Z.eq_dec m (2 ^ 53)) as [Htop | Htop].
    + assert (Ht : ilog2 r = (k + 53)%Z).
      { apply ilog2_unique; [exact Hr | |].
        - rewrite E53. subst r m. apply Qle_refl.
        - rewrite pow2_succ, E53. subst r m. lra. }
      apply (Hgrid (k + 53)%Z (2 ^ 52)%Z Ht); [left; unfold emin in *; lia|].
      rewrite Z.max_l by (unfold emin in *; lia).
      replace (k + 53 - 52)%Z with (k + 1)%Z by lia.
      rewrite pow2_succ. subst r m.
      change (inject_Z (2 ^ 53)) with (2 * inject_Z (2 ^ 52)). ring.
    + assert (Ht : ilog2 r = (k + 52)%Z).
      { apply ilog2_unique; [exact Hr | |].
        - rewrite E52. subst r. apply Qmult_le_compat_r; [|lra].
          now rewrite <- Zle_Qle.
        - replace (k + 52 + 1)%Z with (k + 53)%Z by lia. rewrite E53. subst r.
          apply Qmult_lt_compat_r; [exact Hpk|]. rewrite <- Zlt_Qlt. lia. }
      apply (Hgrid (k + 52)%Z m Ht); [left; unfold emin in *; lia|].
      rewrite Z.max_l by (unfold emin in *; lia).
      now replace (k + 52 - 52)%Z with k by lia.
Qed.

(** A rounded number is a binary64 number: rounding it again changes
    nothing. *)
Lemma rnd_pos_idempotent (q : Q) : 0 < q -> 0 < rnd_pos q -> rnd_pos (rnd_pos q) == rnd_pos q.
Proof.
  intros Hq Hr. pose proof (ulp_pos q) as Hu.
  set (m := round_half_even (q / ulp q)).
  assert (Er : rnd_pos q = inject_Z m * pow2 (Z.max (ilog2 q) emin - 52)) by reflexivity.
  assert (Hm0 : (0 < m)%Z).
  { destruct (Z.lt_ge_cases 0 m) as [H | H]; [exact H|]. exfalso.
    rewrite Er in Hr. rewrite Zle_Qle in H. change (inject_Z 0) with 0 in H.
    pose proof (pow2_pos (Z.max (ilog2 q) emin - 52)) as Hp.
    assert (inject_Z m * pow2 (Z.max (ilog2 q) emin - 52) <= 0 * pow2 (Z.max (ilog2 q) emin - 52))
      by (apply Qmult_le_compat_r; lra).
    lra. }
  assert (Hm1 : (m <= 2 ^ 53)%Z).
  { pose proof (rnd_pos_upper q Hq) as Hup. rewrite Er, <- pow2_53_split in Hup.
    pose proof (pow2_pos (Z.max (ilog2 q) emin - 52)) as Hp.
    destruct (Z.le_gt_cases m (2 ^ 53)) as [H | H]; [exact H|]. exfalso.
    assert (Hlt : inject_Z (2 ^ 53) * pow2 (Z.max (ilog2 q) emin - 52)
                  < inject_Z m * pow2 (Z.max (ilog2 q) emin - 52)).
    { apply Qmult_lt_compat_r; [exact Hp|]. rewrite <- Zlt_Qlt. lia. }
    lra. }
  rewrite Er. apply rnd_pos_grid; [lia | lia |].
  intros Hsmall. destruct (Z.le_gt_cases emin (ilog2 q)) as [Hn | Hs]; [|lia].
  exfalso. pose proof (rnd_pos_lower q Hq Hn) as Hlo.
  rewrite Er, Z.max_l, <- (pow2_52_split (ilog2 q)) in Hlo by lia.
  pose proof (pow2_pos (ilog2 q - 52)) as Hp.
  assert (Hlt : inject_Z m * pow2 (ilog2 q - 52) < inject_Z (2 ^ 52) * pow2 (ilog2 q - 52)).
  { apply Qmult_lt_compat_r; [exact Hp|]. now rewrite <- Zlt_Qlt. }
  lra.
Qed.

Lemma rnd_idempotent (q : Q) : representable (rnd q).
Proof.
  unfold representable. destruct (Q_dec q 0) as [[H | H] | H].
  - rewrite (rnd_negative q H). rewrite rnd_opp. apply Qopp_comp.
    pose proof (rnd_pos_nonneg (- q)) as H0.
    destruct (Qlt_le_dec 0 (rnd_pos (- q))) as [Hp | Hz].
    + rewrite (rnd_positive _ Hp). apply rnd_pos_idempotent; [lra | exact Hp].
    + rewrite rnd_zero by lra. lra.
  - rewrite (rnd_positive q H).
    pose proof (rnd_pos_nonneg q) as H0.
    destruct (Qlt_le_dec 0 (rnd_pos q)) as [Hp | Hz].
    + rewrite (rnd_positive _ Hp). now apply rnd_pos_idempotent.
    + rewrite rnd_zero by lra. lra.
  - rewrite (rnd_zero q H). reflexivity.
Qed.

(** The rounding error below [2 ** (k + 1)] is at most half the spacing
    [2 ** (k - 52)]. *)
Lemma rnd_error (k : Z) (q : Q) :
  (emin <= k)%Z -> 0 <= q -> q < pow2 (k + 1) ->
  q - pow2 (k - 53) <= rnd q /\ rnd q <= q + pow2 (k - 53).
Proof.
  intros Hk H0 Hq. pose proof (pow2_pos (k - 53)) as Hp.
  destruct (Qlt_le_dec 0 q) as [Hpos | Hz].
  - rewrite (rnd_positive q Hpos).
    destruct (rnd_pos_near q) as [H1 H2].
    assert (Hu : ulp q <= 2 * pow2 (k - 53)).
    { rewrite <- pow2_succ. unfold ulp. apply pow2_le.
      pose proof (ilog2_below q k Hpos Hq). lia. }
    clear Hq. set (a := pow2 (k - 53)) in *. set (u := ulp q) in *.
    set (r := rnd_pos q) in *.
    assert (Eh : u / 2 == u * (1 # 2)) by field.
    split; lra.
  - rewrite rnd_zero by lra. split; lra.
Qed.

(** Rounding does not cross a binary64 number. *)
Lemma rnd_below (q b : Q) : representable b -> q <= b -> rnd q <= b.
Proof. intros Rb H. unfold representable in Rb. rewrite <- Rb. now apply rnd_monotone. Qed.

Lemma rnd_above (q b : Q) : representable b -> b <= q -> b <= rnd q.
Proof. intros Rb H. unfold representable in Rb. rewrite <- Rb. now apply rnd_monotone. Qed.

End Binary64Facts.

(** ** The sources on binary64 numbers *)

Module Binary64Sources.
Import Binary64Facts.

Lemma rnd_one : Binary64.rnd 1 == 1.
Proof. reflexivity. Qed.

Lemma rnd_minus_one : Binary64.rnd (-1) == -1.
Proof. reflexivity. Qed.

Lemma truediv_rounds (x y : Q) (v : Q) :
  Py.truediv x y = Return v -> Binary64.truediv x y = Return (Binary64.rnd v).
Proof.
  unfold Py.truediv, Binary64.truediv. destruct (Qeq_bool y 0); [discriminate|].
  now intros [= <-].
Qed.

(** The binary64 converter returns the rounding of the exact quotient. *)
Lemma american_to_prob_rounds (odds : Z) (x : Q) :
  american_to_prob odds = Return x ->
  Binary64.american_to_prob odds = Return (Binary64.rnd x).
Proof.
  unfold american_to_prob, Binary64.american_to_prob.
  destruct (odds >? 0)%Z; apply truediv_rounds.
Qed.

Lemma favourite_quotient_monotone (a b : Q) :
  0 <= a -> a <= b -> a / (a + 100) <= b / (b + 100).
Proof. intros Ha Hab. apply frac_le; lra. Qed.

Lemma underdog_quotient_antitone (a b : Q) :
  0 <= a -> a <= b -> 100 / (b + 100) <= 100 / (a + 100).
Proof. intros Ha Hab. apply frac_le; lra. Qed.

Lemma int_le (a b : Z) : (a <= b)%Z -> int a <= int b.
Proof. unfold int. now rewrite <- Zle_Qle. Qed.

(** C8 (as stated, refuted). On binary64 numbers the converter returns
    exactly 1 for odds of -1801439850948198300: the probability is not
    strictly below 1. *)
Lemma american_to_prob_reaches_one :
  yields (Binary64.american_to_prob (-1801439850948198300)) 1
  /\ ~ (exists p, Binary64.american_to_prob (-1801439850948198300) = Return p
                  /\ 0 < p /\ p < 1).
Proof.
  split; [vm_compute; reflexivity|].
  intros [p [Hp [_ Hlt]]]. revert Hlt. injection Hp as <-. vm_compute. discriminate.
Qed.

(** C8 (amended). For every nonzero odds of an int64 column the converter
    returns, on binary64 numbers, a probability [p] with [0 < p <= 1]; it is
    strictly below 1 for all odds above -1801439850948198300 and is exactly
    1 for the odds at or below that value. *)
Theorem american_to_prob_range_binary64 (odds : Z) :
  odds <> 0%Z -> (- 2 ^ 63 <= odds < 2 ^ 63)%Z ->
  exists p,
    Binary64.american_to_prob odds = Return p
    /\ 0 < p /\ p <= 1
    /\ ((-1801439850948198300 < odds)%Z -> p < 1)
    /\ ((odds <= -1801439850948198300)%Z -> p == 1).
Proof.
  intros Hz [Hlo Hhi].
  destruct (american_to_prob_value odds) as [x [Hx [Hpos Hneg]]].
  exists (Binary64.rnd x). split; [now apply american_to_prob_rounds|].
  set (T := 1801439850948198300%Z).
  assert (Hbounds :
    100 / (int (2 ^ 63) + 100) <= x
    /\ x <= 1
    /\ ((- T < odds)%Z -> x <= int (T - 1) / (int (T - 1) + 100))
    /\ ((odds <= - T)%Z -> int T / (int T + 100) <= x)).
  { destruct (Z.lt_ge_cases 0 odds) as [Hs | Hs].
    - destruct (Hpos Hs) as [H0 E]. rewrite E.
      assert (H1 : int 1 <= int odds) by (apply int_le; lia).
      assert (H2 : int odds <= int (2 ^ 63)) by (apply int_le; lia).
      change (int 1) with 1 in H1.
      split; [apply underdog_quotient_antitone; lra|].
      split; [apply Qle_shift_div_r; lra|].
      split; [|lia]. intros _.
      apply Qle_trans with (100 / (1 + 100)).
      + apply underdog_quotient_antitone; lra.
      + vm_compute. discriminate.
    - destruct (Hneg Hs) as [H0 E]. rewrite E.
      assert (H1 : int 1 <= int (- odds)) by (apply int_le; lia).
      rewrite int_opp in H1. change (int 1) with 1 in H1.
      split.
      { apply Qle_trans with (1 / (1 + 100)); [vm_compute; discriminate|].
        apply favourite_quotient_monotone; lra. }
      split; [apply Qle_shift_div_r; lra|].
      split; intros Ht.
      + assert (H2 : int (- odds) <= int (T - 1)) by (apply int_le; lia).
        rewrite int_opp in H2. apply favourite_quotient_monotone; lra.
      + assert (H2 : int T <= int (- odds)) by (apply int_le; lia).
        rewrite int_opp in H2. apply favourite_quotient_monotone; [|lra].
        vm_compute. discriminate. }
  destruct Hbounds as [Hx0 [Hx1 [Hbelow Habove]]].
  assert (Hle1 : Binary64.rnd x <= 1) by (apply rnd_below; [exact rnd_one | exact Hx1]).
  split.
  { apply Qlt_le_trans with (Binary64.rnd (100 / (int (2 ^ 63) + 100))).
    - vm_compute. reflexivity.
    - now apply rnd_monotone. }
  split; [exact Hle1|]. split; intros Ht.
  - apply Qle_lt_trans with (Binary64.rnd (int (T - 1) / (int (T - 1) + 100))).
    + apply rnd_monotone. now apply Hbelow.
    + vm_compute. reflexivity.
  - apply Qle_antisym; [exact Hle1|].
    apply Qle_trans with (Binary64.rnd (int T / (int T + 100))).
    + vm_compute. discriminate.
    + apply rnd_monotone. now apply Habove.
Qed.

Lemma american_to_prob_range_binary64_witness :
  exists p,
    Binary64.american_to_prob (-50) = Return p
    /\ 0 < p /\ p <= 1
    /\ ((-1801439850948198300 < -50)%Z -> p < 1)
    /\ ((-50 <= -1801439850948198300)%Z -> p == 1).
Proof.
  apply (american_to_prob_range_binary64 (-50)); [discriminate|].
  split; [discriminate | reflexivity].
Defined.

(** *** The blender *)

Lemma rnd_just_above_one : Binary64.rnd (1 + Binary64.pow2 (-53)) == 1.
Proof. reflexivity. Qed.

Lemma rnd_unit_error (q : Q) :
  0 <= q -> q <= 1 + Binary64.pow2 (-53) ->
  q - Binary64.pow2 (-53) <= Binary64.rnd q /\ Binary64.rnd q <= q + Binary64.pow2 (-53).
Proof.
  intros H0 H1. apply (rnd_error 0); [discriminate | exact H0|].
  apply Qle_lt_trans with (1 + Binary64.pow2 (-53)); [exact H1 | reflexivity].
Qed.

(** C6 (as stated, refuted). On binary64 numbers the script's weight 0.7
    applied to two inputs 0.9 gives a blended value above both inputs. *)
Lemma blend_leaves_inputs :
  let x := Binary64.rnd (9 # 10) in
  (0 <= x /\ x <= 1)
  /\ (0 <= Binary64.alpha /\ Binary64.alpha <= 1)
  /\ Qmax x x < Binary64.blend Binary64.alpha x x
  /\ ~ (Qmin x x <= Binary64.blend Binary64.alpha x x
        /\ Binary64.blend Binary64.alpha x x <= Qmax x x).
Proof.
  cbv zeta. repeat split; try (vm_compute; (reflexivity || discriminate)).
  intros [_ H]. revert H. vm_compute. intros H. now apply H.
Qed.

(** C6 (amended). For probabilities [p_model] and [p_market] and a binary64
    weight [alpha], all in [0,1], the blended value computed on binary64
    numbers lies within [0,1], and within [2 ** -51] of the interval between
    the smaller and the larger input, which it can leave by a rounding
    error; the exact value of the expression lies within that interval. *)
Theorem blend_within_inputs_binary64 (a p_model p_market : Q) :
  Binary64.representable a ->
  0 <= p_model <= 1 -> 0 <= p_market <= 1 -> 0 <= a <= 1 ->
  (0 <= Binary64.blend a p_model p_market /\ Binary64.blend a p_model p_market <= 1)
  /\ (Qmin p_model p_market - Binary64.pow2 (-51) <= Binary64.blend a p_model p_market
      /\ Binary64.blend a p_model p_market <= Qmax p_model p_market + Binary64.pow2 (-51))
  /\ (Qmin p_model p_market <= blend a p_model p_market
      /\ blend a p_model p_market <= Qmax p_model p_market).
Proof.
  intros Ra [Hx0 Hx1] [Hy0 Hy1] [Ha0 Ha1].
  enough (H : (0 <= Binary64.blend a p_model p_market
               /\ Binary64.blend a p_model p_market <= 1)
              /\ (Qmin p_model p_market - Binary64.pow2 (-51)
                  <= Binary64.blend a p_model p_market
                  /\ Binary64.blend a p_model p_market
                     <= Qmax p_model p_market + Binary64.pow2 (-51))).
  { destruct H as [H1 H2]. split; [exact H1|]. split; [exact H2|].
    exact (blend_between a p_model p_market (conj Ha0 Ha1)). }
  unfold Binary64.blend, Binary64.add, Binary64.mul, Binary64.sub.
  set (e := Binary64.pow2 (-53)).
  assert (He : 0 < e) by apply pow2_pos.
  assert (E51 : Binary64.pow2 (-51) == 4 * e) by reflexivity.
  set (c := Binary64.rnd (1 - a)).
  set (t1 := Binary64.rnd (a * p_model)).
  set (t2 := Binary64.rnd (c * p_market)).
  (* the complement of the weight *)
  destruct (rnd_unit_error (1 - a)) as [Hc1 Hc2]; [lra | fold e; lra |]. fold c e in Hc1, Hc2.
  assert (Hc0 : 0 <= c) by (apply rnd_sign; lra).
  assert (Hcc : Binary64.rnd c == c) by apply rnd_idempotent.
  (* the two products *)
  assert (Pax : 0 <= a * p_model) by (apply Qmult_le_0_compat; assumption).
  assert (Pax' : 0 <= a * (1 - p_model)) by (apply Qmult_le_0_compat; lra).
  assert (Pcy : 0 <= c * p_market) by (apply Qmult_le_0_compat; assumption).
  assert (Pcy' : 0 <= c * (1 - p_market)) by (apply Qmult_le_0_compat; lra).
  assert (Hc_le : c <= 1).
  { apply rnd_below; [exact rnd_one | lra]. }
  destruct (rnd_unit_error (a * p_model)) as [Ht1a Ht1b]; [lra | fold e; lra |]. fold t1 e in Ht1a, Ht1b.
  destruct (rnd_unit_error (c * p_market)) as [Ht2a Ht2b]; [lra | fold e; lra |]. fold t2 e in Ht2a, Ht2b.
  assert (Ht1_0 : 0 <= t1) by (apply rnd_sign; lra).
  assert (Ht2_0 : 0 <= t2) by (apply rnd_sign; lra).
  assert (Ht1_a : t1 <= a).
  { apply rnd_below; [exact Ra | lra]. }
  assert (Ht2_c : t2 <= c).
  { apply rnd_below; [exact Hcc | lra]. }
  (* the sum *)
  assert (Hs0 : 0 <= t1 + t2) by lra.
  assert (Hs1 : t1 + t2 <= 1 + e) by lra.
  destruct (rnd_unit_error (t1 + t2) Hs0 Hs1) as [Hra Hrb].
  fold e in Hra, Hrb.
  assert (Hr0 : 0 <= Binary64.rnd (t1 + t2)) by (apply rnd_sign; exact Hs0).
  assert (Hr1 : Binary64.rnd (t1 + t2) <= 1).
  { apply Qle_trans with (Binary64.rnd (1 + e)); [now apply rnd_monotone|].
    unfold e. rewrite rnd_just_above_one. apply Qle_refl. }
  split; [split; assumption|].
  (* the exact value lies between the inputs *)
  pose proof (blend_between a p_model p_market (conj Ha0 Ha1)) as [Hlo Hhi].
  unfold blend in Hlo, Hhi.
  (* the error of the second product *)
  assert (Pd1 : 0 <= (e - (c - (1 - a))) * p_market) by (apply Qmult_le_0_compat; lra).
  assert (Pd2 : 0 <= (e + (c - (1 - a))) * p_market) by (apply Qmult_le_0_compat; lra).
  assert (Pe : 0 <= e * (1 - p_market)) by (apply Qmult_le_0_compat; lra).
  rewrite E51. split; lra.
Qed.

Lemma blend_within_inputs_binary64_witness :
  let x := Binary64.rnd (9 # 10) in
  (0 <= Binary64.blend Binary64.alpha x x /\ Binary64.blend Binary64.alpha x x <= 1)
  /\ (Qmin x x - Binary64.pow2 (-51) <= Binary64.blend Binary64.alpha x x
      /\ Binary64.blend Binary64.alpha x x <= Qmax x x + Binary64.pow2 (-51))
  /\ (Qmin x x <= blend Binary64.alpha x x /\ blend Binary64.alpha x x <= Qmax x x).
Proof.
  apply (blend_within_inputs_binary64 Binary64.alpha
           (Binary64.rnd (9 # 10)) (Binary64.rnd (9 # 10))).
  - apply rnd_idempotent.
  - split; vm_compute; discriminate.
  - split; vm_compute; discriminate.
  - split; vm_compute; discriminate.
Defined.

(** *** Further properties on binary64 numbers *)

(** X2. On binary64 numbers the converter keeps the order of the prices:
    among odds of one sign, larger odds never give a larger probability, so
    a more negative price never gives a lower probability (distinct odds
    can share one probability). *)
Theorem american_to_prob_nonincreasing_binary64 (odds1 odds2 : Z) :
  (odds1 < odds2)%Z -> (0 < odds1 \/ odds2 < 0)%Z ->
  exists p1 p2,
    Binary64.american_to_prob odds1 = Return p1
    /\ Binary64.american_to_prob odds2 = Return p2
    /\ p2 <= p1.
Proof.
  intros Hlt Hsign.
  destruct (american_to_prob_value odds1) as [x1 [H1 [Hp1 Hn1]]].
  destruct (american_to_prob_value odds2) as [x2 [H2 [Hp2 Hn2]]].
  pose proof (int_lt odds1 odds2 Hlt) as Hq.
  exists (Binary64.rnd x1), (Binary64.rnd x2).
  split; [now apply american_to_prob_rounds|].
  split; [now apply american_to_prob_rounds|].
  apply rnd_monotone. destruct Hsign as [Hs | Hs].
  - destruct Hp1 as [Hx1 E1]; [lia|]. destruct Hp2 as [Hx2 E2]; [lia|].
    rewrite E1, E2. apply underdog_quotient_antitone; lra.
  - destruct Hn1 as [Hx1 E1]; [lia|]. destruct Hn2 as [Hx2 E2]; [lia|].
    rewrite E1, E2. apply favourite_quotient_monotone; lra.
Qed.

Lemma american_to_prob_nonincreasing_binary64_witness :
  exists p1 p2,
    Binary64.american_to_prob (-2000000001) = Return p1
    /\ Binary64.american_to_prob (-2000000000) = Return p2
    /\ p2 <= p1.
Proof.
  apply (american_to_prob_nonincreasing_binary64 (-2000000001) (-2000000000));
    [reflexivity | right; reflexivity].
Defined.

(** X4. On binary64 numbers the market column is computed for every column
    of odds: nothing is raised, there is one probability per row and each
    of them lies between 0 and 1, both ends included. *)
Theorem p_market_column_binary64 (away_moneyline : list Z) :
  exists ps,
    Binary64.p_market away_moneyline = Return ps
    /\ length ps = length away_moneyline
    /\ Forall (fun p => 0 <= p /\ p <= 1) ps.
Proof.
  induction away_moneyline as [| odds rest [ps [Hps [Hlen Hall]]]];
    cbn [Binary64.p_market].
  - exists []. repeat split. constructor.
  - destruct (american_to_prob_unit odds) as [x [Hx [Hx0 Hx1]]].
    rewrite (american_to_prob_rounds odds x Hx), Hps. cbn [bind].
    exists (Binary64.rnd x :: ps). repeat split.
    + cbn. now rewrite Hlen.
    + constructor; [|exact Hall]. split.
      * apply rnd_sign. exact Hx0.
      * apply rnd_below; [exact rnd_one | lra].
Qed.

Lemma payout_multiplier_binary64 (odds : Z) :
  exists b,
    (if (odds <? 0)%Z then Binary64.truediv (int (- odds)) (int 100)
     else Binary64.truediv (int odds) (int 100)) = Return b
    /\ b == Binary64.rnd (int (Z.abs odds) / 100)
    /\ 0 <= b /\ Binary64.representable b.
Proof.
  exists (Binary64.rnd (int (Z.abs odds) / int 100)).
  assert (H0 : 0 <= int (Z.abs odds) / int 100).
  { apply Qle_shift_div_l; [reflexivity|].
    assert (int 0 <= int (Z.abs odds)) by (apply int_le; lia).
    change (int 0) with 0 in *. lra. }
  split; [|split; [|split]].
  - unfold Binary64.truediv. change (Qeq_bool (int 100) 0) with false.
    destruct (Z.ltb_spec odds 0) as [Hs | Hs].
    + now rewrite Z.abs_neq by lia.
    + now rewrite Z.abs_eq by lia.
  - apply Qeq_refl.
  - now apply rnd_sign.
  - apply rnd_idempotent.
Qed.

(** X6. On binary64 numbers, for a probability [p] in [0,1] and any odds of
    an int64 column (zero included), the staking function returns a Kelly
    fraction between 0 and 1, never more than the bankroll, and an edge of
    at least -1, the loss of the stake. *)
Theorem kelly_fraction_bounds_binary64 (p : Q) (odds : Z) :
  0 <= p <= 1 -> (- 2 ^ 63 <= odds < 2 ^ 63)%Z ->
  exists f_star edge,
    Binary64.kelly_fraction p odds = Return (f_star, edge)
    /\ 0 <= f_star /\ f_star <= 1
    /\ -1 <= edge.
Proof.
  intros [Hp0 Hp1] _.
  destruct (payout_multiplier_binary64 odds) as [b [Hb [_ [Hb0 Rb]]]].
  unfold Binary64.kelly_fraction. rewrite Hb. cbn [bind].
  unfold Binary64.sub, Binary64.mul.
  set (q := Binary64.rnd (1 - p)). set (m := Binary64.rnd (b * p)).
  set (edge := Binary64.rnd (m - q)).
  assert (Hq0 : 0 <= q) by (apply rnd_sign; lra).
  assert (Hq1 : q <= 1) by (apply rnd_below; [exact rnd_one | lra]).
  assert (Hbp : 0 <= b * p) by (apply Qmult_le_0_compat; assumption).
  assert (Hbp' : 0 <= b * (1 - p)) by (apply Qmult_le_0_compat; lra).
  assert (Hm0 : 0 <= m) by (apply rnd_sign; exact Hbp).
  assert (Hmb : m <= b) by (apply rnd_below; [exact Rb | lra]).
  assert (He1 : edge <= b).
  { apply rnd_below; [exact Rb | lra]. }
  assert (He0 : -1 <= edge).
  { apply rnd_above; [exact rnd_minus_one | lra]. }
  destruct (gt b 0) eqn:G.
  - apply gt_true in G. unfold Binary64.truediv.
    replace (Qeq_bool b 0) with false
      by (symmetry; apply not_true_iff_false; rewrite Qeq_bool_iff; lra).
    cbn [bind]. do 2 eexists. split; [reflexivity|].
    rewrite max_Qmax. split; [apply Q.le_max_l|]. split; [|exact He0].
    apply Q.max_lub; [discriminate|].
    apply rnd_below; [exact rnd_one|]. apply Qle_shift_div_r; lra.
  - cbn [bind]. do 2 eexists. split; [reflexivity|].
    split; [apply Qle_refl|]. split; [discriminate | exact He0].
Qed.

Lemma kelly_fraction_bounds_binary64_witness :
  exists f_star edge,
    Binary64.kelly_fraction (Binary64.rnd (55 # 100)) (-110) = Return (f_star, edge)
    /\ 0 <= f_star /\ f_star <= 1
    /\ -1 <= edge.
Proof.
  apply (kelly_fraction_bounds_binary64 (Binary64.rnd (55 # 100)) (-110)).
  - split; vm_compute; discriminate.
  - split; [discriminate | reflexivity].
Defined.

Lemma kelly_fraction_binary64_edge (p : Q) (odds : Z) :
  let b := Binary64.rnd (int (Z.abs odds) / int 100) in
  exists f_star,
    Binary64.kelly_fraction p odds
    = Return (f_star, Binary64.rnd (Binary64.rnd (b * p) - Binary64.rnd (1 - p))).
Proof.
  intros b. unfold Binary64.kelly_fraction.
  assert (Hb : (if (odds <? 0)%Z then Binary64.truediv (int (- odds)) (int 100)
                else Binary64.truediv (int odds) (int 100)) = Return b).
  { unfold Binary64.truediv. change (Qeq_bool (int 100) 0) with false. subst b.
    destruct (Z.ltb_spec odds 0) as [Hs | Hs].
    - now rewrite Z.abs_neq by lia.
    - now rewrite Z.abs_eq by lia. }
  rewrite Hb. cbn [bind]. unfold Binary64.sub, Binary64.mul.
  destruct (gt b 0) eqn:G.
  - apply gt_true in G. unfold Binary64.truediv.
    replace (Qeq_bool b 0) with false
      by (symmetry; apply not_true_iff_false; rewrite Qeq_bool_iff; lra).
    cbn [bind]. eexists. reflexivity.
  - cbn [bind]. eexists. reflexivity.
Qed.

(** X17. On binary64 numbers, at a fixed probability [p >= 0], odds of
    larger magnitude, of either sign, never give a smaller edge. *)
Theorem edge_grows_with_magnitude_binary64 (p : Q) (odds1 odds2 : Z) :
  0 <= p -> (Z.abs odds1 <= Z.abs odds2)%Z -> (Z.abs odds2 <= 2 ^ 63)%Z ->
  exists f1 e1 f2 e2,
    Binary64.kelly_fraction p odds1 = Return (f1, e1)
    /\ Binary64.kelly_fraction p odds2 = Return (f2, e2)
    /\ e1 <= e2.
Proof.
  intros Hp Habs _.
  destruct (kelly_fraction_binary64_edge p odds1) as [f1 H1].
  destruct (kelly_fraction_binary64_edge p odds2) as [f2 H2].
  do 4 eexists. split; [exact H1|]. split; [exact H2|].
  apply rnd_monotone.
  assert (Hb : Binary64.rnd (int (Z.abs odds1) / int 100)
               <= Binary64.rnd (int (Z.abs odds2) / int 100)).
  { apply rnd_monotone. apply Qmult_le_compat_r; [|discriminate]. now apply int_le. }
  assert (Hprod : Binary64.rnd (int (Z.abs odds1) / int 100) * p
                  <= Binary64.rnd (int (Z.abs odds2) / int 100) * p)
    by (apply Qmult_le_compat_r; assumption).
  pose proof (rnd_monotone _ _ Hprod). lra.
Qed.

Lemma edge_grows_with_magnitude_binary64_witness :
  exists f1 e1 f2 e2,
    Binary64.kelly_fraction (Binary64.rnd (60 # 100)) 101 = Return (f1, e1)
    /\ Binary64.kelly_fraction (Binary64.rnd (60 # 100)) (-102) = Return (f2, e2)
    /\ e1 <= e2.
Proof.
  apply (edge_grows_with_magnitude_binary64 (Binary64.rnd (60 # 100)) 101 (-102)).
  - vm_compute. discriminate.
  - discriminate.
  - discriminate.
Defined.

(** *** Agreement with the primitive binary64 operations *)

(** On the inputs of the two refutations the rounded operations of
    [Binary64] give the numbers that the primitive binary64 operations of the
    kernel give. *)
Example blend_agrees_with_primitive :
  let a := Binary64.float_quotient 7 10 in
  let x := Binary64.float_quotient 9 10 in
  Binary64.same a Binary64.alpha
  /\ Binary64.same x (Binary64.rnd (9 # 10))
  /\ Binary64.same (PrimFloat.add (PrimFloat.mul a x)
                                  (PrimFloat.mul (PrimFloat.sub PrimFloat.one a) x))
                   (Binary64.blend Binary64.alpha (Binary64.rnd (9 # 10))
                                   (Binary64.rnd (9 # 10))).
Proof. repeat split; vm_compute; reflexivity. Qed.

Example kelly_fraction_agrees_with_primitive :
  let b := Binary64.float_quotient 110 100 in
  let p := Binary64.float_quotient 55 100 in
  let edge := PrimFloat.sub (PrimFloat.mul b p) (PrimFloat.sub PrimFloat.one p) in
  match Binary64.kelly_fraction (Binary64.rnd (55 # 100)) (-110) with
  | Return (f_star, e) => Binary64.same edge e /\ Binary64.same (PrimFloat.div edge b) f_star
  | Raise _ => False
  end.
Proof. split; vm_compute; reflexivity. Qed.

End Binary64Sources.
